(** * gpuvis_utils.cpp: the log buffers and the colour table

    A shallow embedding of the stateful parts of [src/gpuvis_utils.cpp]:
    the log routines ([logf], [logf_update], ...), which keep two vectors
    of text lines, and the colour registry [Clrs], a fixed table of named
    packed colours that is loaded from and saved to the ini file.  The
    hash-colour helpers and the complement of a colour are embedded over
    binary32 arithmetic. *)

From Stdlib Require Import ZArith List String Ascii DecimalString Lia.
From Corelib Require Import SpecFloat.
From stdpp Require Import base option list gmap strings.

Local Open Scope Z_scope.

(** ** Log routines *)

Module Log.

(** The file-level globals [g_main_tid], [g_log] and [g_thread_log].  A
    [char *] line owned by a vector is modelled by its text.  [g_mutex]
    brackets every access to [g_thread_log] from a thread that is not the
    main one; the embedding gives the effect of one call run to its end,
    so the lock and unlock around the critical sections leave no trace. *)
Record globals := Globals {
  g_main_tid : Z;
  g_log : list string;
  g_thread_log : list string
}.

(** [std::vector::push_back]. *)
Definition push_back {A : Type} (v : list A) (x : A) : list A := v ++ [x].

(** [logf_init]: the calling thread becomes the main thread. *)
Definition logf_init (SDL_ThreadID : Z) (g : globals) : globals :=
  {| g_main_tid := SDL_ThreadID; g_log := g_log g; g_thread_log := g_thread_log g |}.

(** [logf_get]. *)
Definition logf_get (g : globals) : list string := g_log g.

(** [logf], called on the thread [SDL_ThreadID].  [ret] and [buf] are what
    [vasprintf] gave back for the format and its arguments: the size, and
    the freshly allocated text when the size is not negative. *)
Definition logf (SDL_ThreadID : Z) (ret : Z) (buf : string) (g : globals) : globals :=
  if 0 <=? ret then
    if SDL_ThreadID =? g_main_tid g then
      {| g_main_tid := g_main_tid g;
         g_log := push_back (g_log g) buf;
         g_thread_log := g_thread_log g |}
    else
      {| g_main_tid := g_main_tid g;
         g_log := g_log g;
         g_thread_log := push_back (g_thread_log g) buf |}
  else g.

(** [logf_update]: the range-for over [g_thread_log] is a left fold of
    [push_back] into [g_log]; then [g_thread_log.clear()]. *)
Definition logf_update (g : globals) : globals :=
  if (0 <? length (g_thread_log g))%nat then
    {| g_main_tid := g_main_tid g;
       g_log := fold_left push_back (g_thread_log g) (g_log g);
       g_thread_log := [] |}
  else g.

(** [logf_clear]: [logf_update], then every line is freed and [g_log]
    cleared. *)
Definition logf_clear (g : globals) : globals :=
  let g' := logf_update g in
  {| g_main_tid := g_main_tid g'; g_log := []; g_thread_log := g_thread_log g' |}.

(** Two inputs the statements below are run on. *)
Definition sample_globals : globals :=
  {| g_main_tid := 7;
     g_log := ["start"%string; "frame"%string];
     g_thread_log := ["worker a"%string; "worker b"%string] |}.

Definition idle_globals : globals :=
  {| g_main_tid := 7; g_log := ["start"%string]; g_thread_log := [] |}.

End Log.

(** ** The colour table [Clrs] *)

Module Clrs.

(** [colors_t] indexes [s_colordata]; [ImU32] is a packed 32-bit colour. *)
Abbreviation colors_t := nat (only parsing).
Abbreviation ImU32 := Z (only parsing).

(** Modelled from the spec: the packed RGBA layout of [imgui.h], which is
    not among the sources: one byte per channel, alpha in the top byte. *)
Definition IM_COL32_R_SHIFT : Z := 0.
Definition IM_COL32_G_SHIFT : Z := 8.
Definition IM_COL32_B_SHIFT : Z := 16.
Definition IM_COL32_A_SHIFT : Z := 24.
Definition IM_COL32_A_MASK : ImU32 := 0xFF000000.

Definition IM_COL32_R (c : ImU32) : Z := Z.land (Z.shiftr c IM_COL32_R_SHIFT) 0xFF.
Definition IM_COL32_G (c : ImU32) : Z := Z.land (Z.shiftr c IM_COL32_G_SHIFT) 0xFF.
Definition IM_COL32_B (c : ImU32) : Z := Z.land (Z.shiftr c IM_COL32_B_SHIFT) 0xFF.
Definition IM_COL32_A (c : ImU32) : Z := Z.land (Z.shiftr c IM_COL32_A_SHIFT) 0xFF.

(** 32-bit unsigned arithmetic: the cast [( ImU32 )v], [~x] and [x << n]. *)
Definition to_ImU32 (v : Z) : ImU32 := Z.land v 0xFFFFFFFF.
Definition not32 (x : ImU32) : ImU32 := to_ImU32 (Z.lnot x).
Definition shl32 (x : ImU32) (n : Z) : ImU32 := to_ImU32 (Z.shiftl x n).

Definition UINT64_MAX : Z := 0xFFFFFFFFFFFFFFFF.

(** [Clrs::colordata_t], in the order of the initialiser [_XTAG]. *)
Record colordata_t := Colordata {
  name : string;
  color : ImU32;
  defcolor : ImU32;
  modified : bool;
  desc : string
}.

Definition with_color (e : colordata_t) (c : ImU32) : colordata_t :=
  {| name := name e; color := c; defcolor := defcolor e;
     modified := modified e; desc := desc e |}.

Definition with_modified (e : colordata_t) (b : bool) : colordata_t :=
  {| name := name e; color := color e; defcolor := defcolor e;
     modified := b; desc := desc e |}.

(** [#define _XTAG( _name, _color, _desc ) { #_name, _color, _color, false, _desc },]
    and the table it fills from the rows of [gpuvis_colors.inl], which are
    not among the sources and are taken as an argument. *)
Definition XTAG (_name : string) (_color : ImU32) (_desc : string) : colordata_t :=
  {| name := _name; color := _color; defcolor := _color;
     modified := false; desc := _desc |}.

Definition colordata_of_inl (rows : list (string * ImU32 * string)) : list colordata_t :=
  map (fun r => XTAG (fst (fst r)) (snd (fst r)) (snd r)) rows.

(** The enumerators of [gpuvis_colors.inl] that [is_alpha_color] names;
    their values are not among the sources. *)
Record colors_inl := ColorsInl {
  col_ThemeAlpha : colors_t;
  col_Graph_PrintLabelSat : colors_t;
  col_Graph_PrintLabelAlpha : colors_t;
  col_Graph_TimelineLabelSat : colors_t;
  col_Graph_TimelineLabelAlpha : colors_t
}.

(** *** The ini file *)

(** Modelled from the spec: the ini file [s_ini()] of [stlini.h], which is
    not among the sources: typed get and put keyed by a key and a
    section, where a get returns the caller's default when no value of
    the asked type is under the key (the key is absent, or was blanked
    by [PutStr] with the empty text; the table code puts no other text).
    The file also keeps the sequence of put calls made on it, oldest
    first. *)
Inductive ini_value :=
  | IniStr (s : string)
  | IniUint64 (v : Z).

Inductive ini_put :=
  | WrStr (key val section : string)
  | WrUint64 (key : string) (val : Z) (section : string).

Record CIniFile := IniFile {
  ini_values : gmap (string * string) ini_value;
  ini_puts : list ini_put
}.

Definition GetUint64 (key : string) (defval : Z) (section : string) (f : CIniFile) : Z :=
  match ini_values f !! (section, key) with
  | Some (IniUint64 v) => v
  | _ => defval
  end.

Definition PutStr (key val section : string) (f : CIniFile) : CIniFile :=
  {| ini_values := <[(section, key) := IniStr val]> (ini_values f);
     ini_puts := ini_puts f ++ [WrStr key val section] |}.

Definition PutUint64 (key : string) (val : Z) (section : string) (f : CIniFile) : CIniFile :=
  {| ini_values := <[(section, key) := IniUint64 val]> (ini_values f);
     ini_puts := ini_puts f ++ [WrUint64 key val section] |}.

(** The section all colours are kept under. *)
Definition imgui_colors : string := "$imgui_colors$".

(** *** The state and its monad *)

(** The static table [s_colordata] and the ini file behind [s_ini()]. *)
Record state := State {
  s_colordata : list colordata_t;
  s_ini : CIniFile
}.

(** A member function is a state transformer; [None] stands for an index
    outside [s_colordata], which the C++ leaves undefined. *)
Definition M (A : Type) : Type := state -> option (A * state).

Definition ret {A : Type} (a : A) : M A := fun s => Some (a, s).

Definition bind {A B : Type} (m : M A) (k : A -> M B) : M B :=
  fun s => match m s with
           | Some (a, s') => k a s'
           | None => None
           end.

Notation "x <~ m ;; k" := (bind m (fun x => k))
  (at level 100, m at next level, right associativity).
Notation "m ;;; k" := (bind m (fun _ => k))
  (at level 100, right associativity).

(** [s_colordata[ i ]] read, and the two field assignments. *)
Definition colordata (i : colors_t) : M colordata_t :=
  fun s => match s_colordata s !! i with
           | Some e => Some (e, s)
           | None => None
           end.

Definition assign_color (i : colors_t) (c : ImU32) : M unit :=
  fun s => match s_colordata s !! i with
           | Some e => Some (tt, {| s_colordata := <[i := with_color e c]> (s_colordata s);
                                    s_ini := s_ini s |})
           | None => None
           end.

Definition assign_modified (i : colors_t) (b : bool) : M unit :=
  fun s => match s_colordata s !! i with
           | Some e => Some (tt, {| s_colordata := <[i := with_modified e b]> (s_colordata s);
                                    s_ini := s_ini s |})
           | None => None
           end.

(** Calls on [s_ini()]. *)
Definition ini_GetUint64 (key : string) (defval : Z) (section : string) : M Z :=
  fun s => Some (GetUint64 key defval section (s_ini s), s).

Definition ini_PutStr (key val section : string) : M unit :=
  fun s => Some (tt, {| s_colordata := s_colordata s;
                        s_ini := PutStr key val section (s_ini s) |}).

Definition ini_PutUint64 (key : string) (val : Z) (section : string) : M unit :=
  fun s => Some (tt, {| s_colordata := s_colordata s;
                        s_ini := PutUint64 key val section (s_ini s) |}).

(** [for ( colors_t i = from; i < from + n; i++ ) body( i )]. *)
Fixpoint for_colors_from (n : nat) (i : colors_t) (body : colors_t -> M unit) : M unit :=
  match n with
  | O => ret tt
  | S n' => body i ;;; for_colors_from n' (S i) body
  end.

(** [col_Max] is the size of the array [s_colordata[ col_Max ]]. *)
Definition col_Max (s : state) : nat := length (s_colordata s).

Definition for_colors (body : colors_t -> M unit) : M unit :=
  fun s => for_colors_from (col_Max s) 0%nat body s.

(** *** The member functions *)

Definition is_default (col : colors_t) : M bool :=
  e <~ colordata col ;;
  ret (color e =? defcolor e).

Definition is_alpha_color (inl : colors_inl) (col : colors_t) : bool :=
  if decide (col = col_ThemeAlpha inl) then true
  else if decide (col = col_Graph_PrintLabelSat inl) then true
  else if decide (col = col_Graph_PrintLabelAlpha inl) then true
  else if decide (col = col_Graph_TimelineLabelSat inl) then true
  else if decide (col = col_Graph_TimelineLabelAlpha inl) then true
  else false.

(** [init], and the body of its loop. *)
Definition init_entry (i : colors_t) : M unit :=
  e <~ colordata i ;;
  let key := name e in
  val <~ ini_GetUint64 key UINT64_MAX imgui_colors ;;
  if negb (val =? UINT64_MAX) then assign_color i (to_ImU32 val)
  else ret tt.

Definition init : M unit := for_colors init_entry.

(** [shutdown], and the body of its loop. *)
Definition shutdown_entry (i : colors_t) : M unit :=
  e <~ colordata i ;;
  if modified e then
    e1 <~ colordata i ;;
    let key := name e1 in
    d <~ is_default i ;;
    if d then ini_PutStr key EmptyString imgui_colors
    else
      e2 <~ colordata i ;;
      ini_PutUint64 key (color e2) imgui_colors
  else ret tt.

Definition shutdown : M unit := for_colors shutdown_entry.

Definition get (col : colors_t) (alpha : ImU32) : M ImU32 :=
  if alpha <=? 0xff then
    e <~ colordata col ;;
    ret (Z.lor (Z.land (color e) (not32 IM_COL32_A_MASK)) (shl32 alpha IM_COL32_A_SHIFT))
  else
    e <~ colordata col ;;
    ret (color e).

Definition set (col : colors_t) (c : ImU32) : M unit :=
  e <~ colordata col ;;
  if negb (color e =? c) then
    assign_color col c ;;;
    assign_modified col true
  else ret tt.

Definition reset (col : colors_t) : M unit :=
  e <~ colordata col ;;
  assign_color col (defcolor e).

(** *** What the loops amount to, entry by entry *)

(** One put call replayed on the ini file. *)
Definition do_put (f : CIniFile) (p : ini_put) : CIniFile :=
  match p with
  | WrStr key val section => PutStr key val section f
  | WrUint64 key val section => PutUint64 key val section f
  end.

(** The put [shutdown] is to make for a modified entry: a blank text
    under its name when the colour is back at its default, the colour
    otherwise. *)
Definition override_put (e : colordata_t) : ini_put :=
  if color e =? defcolor e then WrStr (name e) EmptyString imgui_colors
  else WrUint64 (name e) (color e) imgui_colors.

(** The puts of a whole [shutdown]: one per modified entry, in table
    order, none for the others. *)
Definition overrides_written (tbl : list colordata_t) : list ini_put :=
  map override_put (List.filter modified tbl).

(** The entry [init] is to leave for [e]: the colour found in the file
    under the entry's name, unless that is the all-ones value [init]
    passes as the default of its lookup. *)
Definition load_override (f : CIniFile) (e : colordata_t) : colordata_t :=
  match ini_values f !! (imgui_colors, name e) with
  | Some (IniUint64 v) => if v =? UINT64_MAX then e else with_color e (to_ImU32 v)
  | _ => e
  end.

(** *** Inputs the statements below are run on *)

(** An enumeration whose first row is the theme alpha, and a table of
    three rows. *)
Definition sample_inl : colors_inl :=
  {| col_ThemeAlpha := 0%nat; col_Graph_PrintLabelSat := 3%nat;
     col_Graph_PrintLabelAlpha := 4%nat; col_Graph_TimelineLabelSat := 5%nat;
     col_Graph_TimelineLabelAlpha := 6%nat |}.

Definition sample_rows : list (string * ImU32 * string) :=
  [ ("col_ThemeAlpha"%string, 0xFF112233, "Global alpha value"%string);
    ("col_ClearColor"%string, 0xFF050505, "Window background clear color"%string);
    ("col_BrightText"%string, 0xFF00FFFF, "Bright text color"%string) ].

Definition empty_ini : CIniFile := {| ini_values := ∅; ini_puts := [] |}.

Definition sample_state : state :=
  {| s_colordata := colordata_of_inl sample_rows; s_ini := empty_ini |}.

(** An ini file that holds the 64-bit all-ones value for one colour and
    a plain colour for another. *)
Definition sentinel_ini : CIniFile :=
  {| ini_values :=
       <[(imgui_colors, "col_ClearColor"%string) := IniUint64 UINT64_MAX]>
         (<[(imgui_colors, "col_BrightText"%string) := IniUint64 0x80404040]> ∅);
     ini_puts := [] |}.

Definition sentinel_state : state :=
  {| s_colordata := colordata_of_inl sample_rows; s_ini := sentinel_ini |}.

(** The table after two edits: entry 0 was given a new alpha and entry 1
    a new colour. *)
Definition edited_state : state :=
  {| s_colordata :=
       [ {| name := "col_ThemeAlpha"; color := 0x80112233; defcolor := 0xFF112233;
            modified := true; desc := "Global alpha value" |};
         {| name := "col_ClearColor"; color := 0xFF0000FF; defcolor := 0xFF050505;
            modified := true; desc := "Window background clear color" |};
         {| name := "col_BrightText"; color := 0xFF00FFFF; defcolor := 0xFF00FFFF;
            modified := false; desc := "Bright text color" |} ];
     s_ini := empty_ini |}.

End Clrs.

(** ** Colours from hash values *)

(** Single-precision arithmetic, as IEEE 754 binary32 with rounding to
    nearest even: the [float] of the C++. *)
Module F32.

Definition prec : Z := 24.
Definition emax : Z := 128.

(** The value [m * 2^e] as a [float]; with [e = 0], the conversion of an
    unsigned integer. *)
Definition of_Z_exp (m e : Z) : spec_float := binary_normalize prec emax m e false.
Definition of_uint (n : Z) : spec_float := of_Z_exp n 0.

Definition add : spec_float -> spec_float -> spec_float := SFadd prec emax.
Definition mul : spec_float -> spec_float -> spec_float := SFmul prec emax.
Definition div : spec_float -> spec_float -> spec_float := SFdiv prec emax.
Definition sub : spec_float -> spec_float -> spec_float := SFsub prec emax.

Definition leb : spec_float -> spec_float -> bool := SFleb.
Definition ltb : spec_float -> spec_float -> bool := SFltb.

(** The literals [0.0f], [0.5f] and [1.0f]. *)
Definition zero : spec_float := of_uint 0.
Definition half : spec_float := of_Z_exp 1 (-1).
Definition one : spec_float := of_uint 1.

(** The value of a float counted in units of 2^-149, the smallest
    positive [float]: a whole number for every finite [float]. *)
Definition units (x : spec_float) : Z :=
  match x with
  | S754_finite s m e => cond_Zopp s (Zpos m * 2 ^ (e + 149))
  | _ => 0
  end.

(** A [float] from zero to one, ends included. *)
Definition unit_interval (h : spec_float) : bool :=
  valid_binary prec emax h && leb zero h && leb h one.

(** [m / 2^k] rounded to the nearest whole number, to the even one of
    two equally near: what is left of a mantissa after [k] digits are
    shifted out. *)
Definition round_shift (m k : Z) : Z :=
  let q := m / 2 ^ k in
  match Z.testbit m (k - 1), negb (m mod 2 ^ (k - 1) =? 0) with
  | false, _ => q
  | true, false => if Z.even q then q else q + 1
  | true, true => q + 1
  end.

End F32.

Module HashColor.

(** [float h = ( hashval & 0xffffff ) / 16777215.0f;] *)
Definition hashval_h (hashval : Z) : spec_float :=
  F32.div (F32.of_uint (Z.land hashval 0xffffff)) (F32.of_uint 16777215).

(** [float v = ( hashval >> 24 ) / ( 2.0f * 255.0f ) + 0.5f;] *)
Definition hashval_v (hashval : Z) : spec_float :=
  F32.add
    (F32.div (F32.of_uint (Z.shiftr hashval 24))
             (F32.mul (F32.of_uint 2) (F32.of_uint 255)))
    F32.half.

(** Whether [hashval_v] is between [0.5f] and [1.0f] when the top byte of
    the hash is [b]. *)
Definition v_in_range (b : nat) : bool :=
  F32.leb F32.half (hashval_v (Z.shiftl (Z.of_nat b) 24))
  && F32.leb (hashval_v (Z.shiftl (Z.of_nat b) 24)) F32.one.

Section Imgui.

(** [ImColor::HSV] and the conversion of an [ImColor] to [ImU32] belong
    to ImGui and are taken as given. *)
Variable ImColor : Type.
Variable ImColor_HSV : spec_float -> spec_float -> spec_float -> spec_float -> ImColor.
Variable ImColor_to_ImU32 : ImColor -> Z.

Definition imgui_hsv (h s v a : spec_float) : Z :=
  let color := ImColor_HSV h s v a in
  ImColor_to_ImU32 color.

Definition imgui_col_from_hashval (hashval : Z) (sat alpha : spec_float) : Z :=
  let h := hashval_h hashval in
  let v := hashval_v hashval in
  imgui_hsv h sat v alpha.

End Imgui.

(** A stand-in for ImGui's conversion, to run the statements on: it
    keeps only whether the hue is below one. *)
Definition sample_HSV (h s v a : spec_float) : bool := F32.ltb h F32.one.
Definition sample_to_ImU32 (c : bool) : Z := if c then 1 else 0.

End HashColor.

(** ** The complement of a colour *)

Module Complement.

(** [ImVec4]: four [float]s. *)
Record ImVec4 := { x : spec_float; y : spec_float; z : spec_float; w : spec_float }.

(** [h += 0.5f; if ( h > 1.0f ) h -= 1.0f;] *)
Definition rotate_hue (h : spec_float) : spec_float :=
  let h := F32.add h F32.half in
  if F32.ltb F32.one h then F32.sub h F32.one else h.

(** Following the spec's words, the hue rotated by 0.5 modulo 1.0: the
    sum, less one as soon as it reaches one. *)
Definition rotate_hue_mod_one (h : spec_float) : spec_float :=
  let h := F32.add h F32.half in
  if F32.leb F32.one h then F32.sub h F32.one else h.

Section Imgui.

(** The conversions belong to ImGui and are taken as given: [ImColor::HSV],
    the conversion of an [ImColor] to [ImU32], [ImColor( col )] read as an
    [ImVec4], and [ImGui::ColorConvertRGBtoHSV] with what it stores in its
    three out parameters. *)
Variable ImColor : Type.
Variable ImColor_HSV : spec_float -> spec_float -> spec_float -> spec_float -> ImColor.
Variable ImColor_to_ImU32 : ImColor -> Z.
Variable ImColor_of_ImU32 : Z -> ImVec4.
Variable ColorConvertRGBtoHSV :
  spec_float -> spec_float -> spec_float -> spec_float * spec_float * spec_float.

(** The hue, saturation and value ImGui finds in a packed colour. *)
Definition hsv_of (col : Z) : spec_float * spec_float * spec_float :=
  let color := ImColor_of_ImU32 col in
  ColorConvertRGBtoHSV (x color) (y color) (z color).

Definition imgui_col_complement (col : Z) : Z :=
  let color := ImColor_of_ImU32 col in
  let '(h, s, v) := ColorConvertRGBtoHSV (x color) (y color) (z color) in
  let h := F32.add h F32.half in
  let h := if F32.ltb F32.one h then F32.sub h F32.one else h in
  HashColor.imgui_hsv ImColor ImColor_HSV ImColor_to_ImU32 h s v F32.one.

(** Following the spec's words: the colour converted to hue, saturation
    and value, the hue rotated by 0.5 modulo 1.0, and converted back
    with full opacity. *)
Definition complement_mod_one (col : Z) : Z :=
  let '(h, s, v) := hsv_of col in
  ImColor_to_ImU32 (ImColor_HSV (rotate_hue_mod_one h) s v F32.one).

End Imgui.

(** A stand-in for ImGui's conversions, to run the statements on: a
    packed colour is its hue alone, counted in units of 2^-24. *)
Definition hue24_of_ImU32 (col : Z) : ImVec4 :=
  {| x := F32.of_Z_exp col (-24); y := F32.one; z := F32.one; w := F32.one |}.
Definition hue24_RGBtoHSV (r g b : spec_float) : spec_float * spec_float * spec_float :=
  (r, g, b).
Definition hue24_HSV (h s v a : spec_float) : spec_float := h.
Definition hue24_to_ImU32 (c : spec_float) : Z := F32.units c / 2 ^ 125.

(** The same with the hue read as an angle, where 1.0 is 0.0. *)
Definition hue24_HSV_turn (h s v a : spec_float) : spec_float :=
  if SFeqb h F32.one then F32.zero else h.

End Complement.

(** ** The [comp_] names *)

Module Comp.

(** A C string is the list of its characters before the terminating
    NUL; [str[ i ]] reads the NUL at the end of the list. *)
Definition NUL : ascii := Ascii.zero.
Definition char_at (str : list ascii) (i : nat) : ascii := nth i str NUL.
Definition char_code (c : ascii) : Z := Z.of_nat (nat_of_ascii c).

(** [isdigit] in the C locale. *)
Definition isdigit (c : ascii) : bool := (48 <=? char_code c) && (char_code c <=? 57).

(** [uint32_t] arithmetic. *)
Definition u32 (v : Z) : Z := v mod 2 ^ 32.

(** [!strncmp( comp, pfx, n )]: the first [n] characters agree, where a
    string that ends early differs at its NUL. *)
Fixpoint strncmp_eq (str pfx : list ascii) (n : nat) : bool :=
  match n with
  | O => true
  | S n' =>
      match str, pfx with
      | [], [] => true
      | c1 :: str', c2 :: pfx' => Ascii.eqb c1 c2 && strncmp_eq str' pfx' n'
      | _, _ => false
      end
  end.

(** [comp_str_parse]: the result, and the values left in [a], [b] and
    [c], which come in as [a0], [b0] and [c0]. *)
Definition comp_str_parse (comp : list ascii) (a0 b0 c0 : Z) : bool * (Z * Z * Z) :=
  if strncmp_eq comp (list_ascii_of_string "comp_") 5
     && (Ascii.eqb (char_at comp 5) "1" || Ascii.eqb (char_at comp 5) "2")
     && Ascii.eqb (char_at comp 6) "."
     && isdigit (char_at comp 7)
     && Ascii.eqb (char_at comp 8) "."
     && isdigit (char_at comp 9)
  then
    let a := u32 (char_code (char_at comp 5) - char_code "0"%char) in
    let b := u32 (char_code (char_at comp 7) - char_code "0"%char) in
    let c := u32 (char_code (char_at comp 9) - char_code "0"%char) in
    ((b <=? 3) && (c <=? 8), (a, b, c))
  else (false, (a0, b0, c0)).

(** [comp_val_to_abc]: the result and the values stored in [a], [b], [c]. *)
Definition comp_val_to_abc (val : Z) : bool * (Z * Z * Z) :=
  let c := val mod 9 in
  let b := (val / 9) mod 4 in
  let a := u32 (val / 36 + 1) in
  (a <=? 2, (a, b, c)).

Definition comp_abc_to_val (a b c : Z) : Z :=
  u32 (u32 (u32 (u32 (a - 1) * 36) + u32 (b * 9)) + c).

(** [%u] of [printf]: the decimal digits of an unsigned value. *)
Definition fmt_u (n : Z) : list ascii :=
  list_ascii_of_string (NilZero.string_of_uint (N.to_uint (Z.to_N n))).

(** The text [string_format( "comp_%u.%u.%u", a, b, c )] expands to. *)
Definition comp_str_create_abc (a b c : Z) : list ascii :=
  list_ascii_of_string "comp_" ++ fmt_u a ++ list_ascii_of_string "."
    ++ fmt_u b ++ list_ascii_of_string "." ++ fmt_u c.

Definition comp_str_create_val (val : Z) : list ascii :=
  let '(ok, (a, b, c)) := comp_val_to_abc val in
  if ok then comp_str_create_abc a b c else [].

End Comp.

(** ** Sequences of log calls *)

Module LogRun.
Import Log.

(** One call on the log: [logf] from the thread [tid], with what
    [vasprintf] gave it, or [logf_update].  The mutex makes the push of a
    worker and the move of [logf_update] exclude each other, so a run of
    the program is a sequence of such calls. *)
Inductive call :=
  | Logf (tid ret : Z) (buf : string)
  | Update.

Definition step (g : globals) (c : call) : globals :=
  match c with
  | Logf tid ret buf => logf tid ret buf g
  | Update => logf_update g
  end.

Definition run (cs : list call) (g : globals) : globals := fold_left step cs g.

(** The texts [logf] was given with a size that is not negative, from
    the main thread [tid] and from the other threads, in call order. *)
Fixpoint main_texts (tid : Z) (cs : list call) : list string :=
  match cs with
  | [] => []
  | Logf t ret buf :: cs' =>
      if (0 <=? ret) && (t =? tid) then buf :: main_texts tid cs' else main_texts tid cs'
  | Update :: cs' => main_texts tid cs'
  end.

Fixpoint worker_texts (tid : Z) (cs : list call) : list string :=
  match cs with
  | [] => []
  | Logf t ret buf :: cs' =>
      if (0 <=? ret) && negb (t =? tid) then buf :: worker_texts tid cs'
      else worker_texts tid cs'
  | Update :: cs' => worker_texts tid cs'
  end.

(** [merged a b l]: [l] holds the elements of [a] and of [b], each list
    in its own order. *)
Inductive merged {A : Type} : list A -> list A -> list A -> Prop :=
  | merged_nil : merged [] [] []
  | merged_left x a b l : merged a b l -> merged (x :: a) b (x :: l)
  | merged_right x a b l : merged a b l -> merged a (x :: b) (x :: l).

Definition sample_calls : list call :=
  [ Logf 9 3 "w1"; Logf 7 3 "m1"; Logf 8 (-1) "bad"; Update;
    Logf 9 3 "w2"; Logf 7 3 "m2" ].

End LogRun.

(** ** More of the colour table *)

Module ClrsMore.
Import Clrs.

(** [Clrs::getalpha]: [IM_COL32_A( color ) * ( 1.0f / 255.0f )]. *)
Definition alpha_unit (a : Z) : spec_float :=
  F32.mul (F32.of_uint a) (F32.div F32.one (F32.of_uint 255)).

Definition getalpha (col : colors_t) : M spec_float :=
  e <~ colordata col ;;
  ret (alpha_unit (IM_COL32_A (color e))).

(** Whether [alpha_unit] is between [0.0f] and [1.0f] at the byte [b]. *)
Definition alpha_unit_in_range (b : nat) : bool :=
  F32.leb F32.zero (alpha_unit (Z.of_nat b)) && F32.leb (alpha_unit (Z.of_nat b)) F32.one.

(** [Clrs::desc]. *)
Definition get_desc (col : colors_t) : M string :=
  e <~ colordata col ;;
  ret (desc e).

(** The row of the static initialiser an entry started from: the table
    of a new process holds these. *)
Definition compiled_in (e : colordata_t) : colordata_t :=
  XTAG (name e) (defcolor e) (desc e).

(** The key and the value of a put. *)
Definition put_key (p : ini_put) : string * string :=
  match p with
  | WrStr key _ section => (section, key)
  | WrUint64 key _ section => (section, key)
  end.

Definition put_value (p : ini_put) : ini_value :=
  match p with
  | WrStr _ val _ => IniStr val
  | WrUint64 _ val _ => IniUint64 val
  end.

(** An ini file with an override for the second row of [sample_rows],
    and the table [init] makes of it. *)
Definition override_ini : CIniFile :=
  {| ini_values := <[(imgui_colors, "col_ClearColor"%string) := IniUint64 0xFF202020]> ∅;
     ini_puts := [] |}.

Definition loaded_state : state :=
  {| s_colordata :=
       [ {| name := "col_ThemeAlpha"; color := 0xFF112233; defcolor := 0xFF112233;
            modified := false; desc := "Global alpha value" |};
         {| name := "col_ClearColor"; color := 0xFF202020; defcolor := 0xFF050505;
            modified := false; desc := "Window background clear color" |};
         {| name := "col_BrightText"; color := 0xFF00FFFF; defcolor := 0xFF00FFFF;
            modified := false; desc := "Bright text color" |} ];
     s_ini := override_ini |}.

End ClrsMore.

(** ** Colour escapes in text *)

Module TextClrs.
Import Clrs.

(** [std::max< uint8_t >( x, 1 )] on a channel byte. *)
Definition max_u8 (x y : Z) : Z := Z.max (x mod 256) (y mod 256).

Definition char_of (code : Z) : ascii := ascii_of_nat (Z.to_nat code).

(** [TextClrs::set]: the five characters left in [strin]. *)
Definition set (color : ImU32) : list ascii :=
  [ char_of 27;
    char_of (max_u8 (IM_COL32_R color) 1);
    char_of (max_u8 (IM_COL32_G color) 1);
    char_of (max_u8 (IM_COL32_B color) 1);
    char_of (max_u8 (IM_COL32_A color) 1) ].

(** [TextClrs::mstr], with the escapes [m_buf[ clr ]] and
    [m_buf[ TClr_Def ]]. *)
Definition mstr (buf_clr buf_def strin : list ascii) : list ascii :=
  buf_clr ++ strin ++ buf_def.

End TextClrs.

(** ** String helpers *)

Module Str.
Import Comp.

(** A [std::string] is the list of its characters.  [isspace] and
    [ispunct] are those of the C locale. *)
Definition isspace (ch : ascii) : bool :=
  let n := char_code ch in ((9 <=? n) && (n <=? 13)) || (n =? 32).

Definition ispunct (ch : ascii) : bool :=
  let n := char_code ch in
  ((33 <=? n) && (n <=? 47)) || ((58 <=? n) && (n <=? 64))
  || ((91 <=? n) && (n <=? 96)) || ((123 <=? n) && (n <=? 126)).

(** [std::find_if]: the position of the first element [pred] holds of,
    the end of the range when there is none. *)
Fixpoint find_if {A : Type} (pred : A -> bool) (l : list A) : nat :=
  match l with
  | [] => 0%nat
  | x :: l' => if pred x then 0%nat else S (find_if pred l')
  end.

(** [s.erase( first, last )] between two positions. *)
Definition erase {A : Type} (s : list A) (first last : nat) : list A :=
  take first s ++ drop last s.

Definition not_space (ch : ascii) : bool := negb (isspace ch).

(** [string_ltrim]: erase from the start to the first character that
    is not a space. *)
Definition string_ltrim (s : list ascii) : list ascii :=
  erase s 0 (find_if not_space s).

(** [string_rtrim]: the search runs on the reversed string, and the
    base of the reverse iterator it stops at is that far from the end. *)
Definition string_rtrim (s : list ascii) : list ascii :=
  erase s (length s - find_if not_space (reverse s)) (length s).

Definition string_trim (s : list ascii) : list ascii :=
  string_rtrim (string_ltrim s).

(** The copying variants. *)
Definition string_ltrimmed (s : list ascii) : list ascii := string_ltrim s.
Definition string_rtrimmed (s : list ascii) : list ascii := string_rtrim s.
Definition string_trimmed (s : list ascii) : list ascii := string_trim s.

(** [string_remove_punct]: [std::remove_copy_if] copies what [ispunct]
    does not hold of. *)
Definition string_remove_punct (s : list ascii) : list ascii :=
  List.filter (fun ch => negb (ispunct ch)) s.

(** [s.find( search, pos )] for a character: the first position at or
    after [pos] that holds it, [None] for [npos]. *)
Definition find_char (s : list ascii) (search : ascii) (pos : nat) : option nat :=
  let k := find_if (Ascii.eqb search) (drop pos s) in
  if (k <? length (drop pos s))%nat then Some (pos + k)%nat else None.

(** [string_replace_char]: the loop, with [fuel] bounding its turns;
    [None] when the fuel runs out before [find] returns [npos]. *)
Fixpoint string_replace_char_from (fuel : nat) (s : list ascii) (search replace : ascii)
    (pos : nat) : option (list ascii) :=
  match fuel with
  | O => None
  | S fuel' =>
      match find_char s search pos with
      | None => Some s
      | Some pos' => string_replace_char_from fuel' (<[pos' := replace]> s) search replace pos'
      end
  end.

Definition string_replace_char (fuel : nat) (s : list ascii) (search replace : ascii)
    : option (list ascii) :=
  string_replace_char_from fuel s search replace 0.

(** [std::getline( iss, token, delim )] on what is left of the stream:
    it fails when nothing is left; otherwise the token runs up to the
    delimiter, which is taken out of the stream, or to the end. *)
Definition getline (rest : list ascii) (delim : ascii) : option (list ascii * list ascii) :=
  match rest with
  | [] => None
  | _ =>
      let n := find_if (Ascii.eqb delim) rest in
      Some (take n rest, drop (S n) rest)
  end.

(** [string_explode]: the loop over [getline], which takes at least
    one character out of the stream at each turn. *)
Fixpoint string_explode_from (fuel : nat) (rest : list ascii) (delim : ascii)
    (result : list (list ascii)) : list (list ascii) :=
  match fuel with
  | O => result
  | S fuel' =>
      match getline rest delim with
      | None => result
      | Some (token, rest') => string_explode_from fuel' rest' delim (result ++ [token])
      end
  end.

Definition string_explode (s : list ascii) (delim : ascii) : list (list ascii) :=
  string_explode_from (S (length s)) s delim [].

(** [string_implode]: the loop over the elements, the iterator being
    [i] places from the start. *)
Fixpoint string_implode_from (elements : list (list ascii)) (i n : nat)
    (delimiter full : list ascii) : list ascii :=
  match elements with
  | [] => full
  | x :: elements' =>
      let full1 := full ++ x in
      let full2 := if bool_decide (i <> (n - 1)%nat) then full1 ++ delimiter else full1 in
      string_implode_from elements' (S i) n delimiter full2
  end.

Definition string_implode (elements : list (list ascii)) (delimiter : list ascii)
    : list ascii :=
  string_implode_from elements 0 (length elements) delimiter [].

(** [get_path_filename]: [str] runs over the string and [filename]
    moves past each separator that has a character after it. *)
Definition is_separator (ch : ascii) : bool :=
  Ascii.eqb ch "/" || Ascii.eqb ch "\".

Fixpoint get_path_filename_from (str filename : list ascii) : list ascii :=
  match str with
  | [] => filename
  | ch :: str' =>
      let filename' :=
        if is_separator ch && negb (Ascii.eqb (char_at str 1) NUL) then str'
        else filename in
      get_path_filename_from str' filename'
  end.

Definition get_path_filename (filename : list ascii) : list ascii :=
  get_path_filename_from filename filename.

(** [string_formatv]: every turn of the loop hands [vsnprintf] the same
    [ap]; the code makes no [va_copy], so from the second turn on the
    call finds the list as the calls before have left it.
    [vsnprintf ap size] stands for the call on a buffer of [size]
    characters and gives the count it returns, the buffer it leaves and
    the state it leaves [ap] in. *)
Section Formatv.

Variable va_list : Type.
Variable vsnprintf : va_list -> Z -> Z * list ascii * va_list.

Fixpoint string_formatv_from (fuel : nat) (ap : va_list) (size : Z)
    : option (list ascii) :=
  match fuel with
  | O => None
  | S fuel' =>
      let '(n, str, ap') := vsnprintf ap size in
      if (-1 <? n) && (n <? size) then Some (take (Z.to_nat n) str)
      else string_formatv_from fuel' ap' (if -1 <? n then n + 1 else size * 2)
  end.

Definition string_formatv (fuel : nat) (ap : va_list) : option (list ascii) :=
  string_formatv_from fuel ap 512.

(** A [vsnprintf] for one format: [expand ap] is the text the format
    expands to with the arguments [ap] holds, and [spent ap size] the
    state a call on a buffer of [size] characters leaves [ap] in, which
    C leaves open. *)
Variable expand : va_list -> list ascii.
Variable spent : va_list -> Z -> va_list.

(** [vsnprintf] as C99 has it: the count is the length of the whole
    text, and the buffer holds as much of it as fits before a NUL. *)
Definition c99_vsnprintf (ap : va_list) (size : Z) : Z * list ascii * va_list :=
  let text := expand ap in
  (Z.of_nat (length text),
   take (Z.to_nat (size - 1)) text
     ++ replicate (Z.to_nat size - length (take (Z.to_nat (size - 1)) text)) NUL,
   spent ap size).

(** [vsnprintf] as older C libraries have it: -1 when the text and its
    NUL do not fit. *)
Definition old_vsnprintf (ap : va_list) (size : Z) : Z * list ascii * va_list :=
  let text := expand ap in
  if Z.of_nat (length text) <? size then c99_vsnprintf ap size
  else (-1, take (Z.to_nat size) text, spent ap size).

(** The state of [ap] at the call that follows [k] calls on buffers
    that double from [size]. *)
Fixpoint ap_after (k : nat) (ap : va_list) (size : Z) : va_list :=
  match k with
  | O => ap
  | S k' => ap_after k' (spent ap size) (size * 2)
  end.

End Formatv.

(** A stand-in for the arguments of the format [%s], to run the
    statements on: the list holds the strings still to be fetched, and
    the text is the first of them, or a placeholder when none is left. *)
Definition sample_expand (ap : list (list ascii)) : list ascii :=
  match ap with
  | arg :: _ => arg
  | [] => list_ascii_of_string "(null)"
  end.

(** A call that uses up the argument it fetches, and one that leaves
    the caller's list alone. *)
Definition sample_used_up (ap : list (list ascii)) (size : Z) : list (list ascii) :=
  tail ap.
Definition sample_kept (ap : list (list ascii)) (size : Z) : list (list ascii) := ap.

(** [s.find( search, pos )] for a string: the first position at or
    after [pos] where [search] starts, [None] for [npos]; the empty
    string is found at every position up to the end. *)
Fixpoint starts_with (s search : list ascii) : bool :=
  match search, s with
  | [], _ => true
  | c :: search', c' :: s' => Ascii.eqb c c' && starts_with s' search'
  | _ :: _, [] => false
  end.

Fixpoint find_str_from (n : nat) (s search : list ascii) (i : nat) : option nat :=
  match n with
  | O => None
  | S n' => if starts_with (drop i s) search then Some i
            else find_str_from n' s search (S i)
  end.

Definition find_str (s search : list ascii) (pos : nat) : option nat :=
  if (length search <=? length s)%nat
  then find_str_from (S (length s - length search) - pos) s search pos
  else None.

(** [string_replace_str]: the loop, with [fuel] bounding its turns;
    [s.erase( pos, n )] and [s.insert( pos, replace )] are spelled out. *)
Fixpoint string_replace_str_from (fuel : nat) (s search replace : list ascii) (pos : nat)
    : option (list ascii) :=
  match fuel with
  | O => None
  | S fuel' =>
      match find_str s search pos with
      | None => Some s
      | Some pos' =>
          let erased := take pos' s ++ drop (pos' + length search) s in
          let inserted := take pos' erased ++ replace ++ drop pos' erased in
          string_replace_str_from fuel' inserted search replace (pos' + length replace)
      end
  end.

Definition string_replace_str (fuel : nat) (s search replace : list ascii)
    : option (list ascii) :=
  string_replace_str_from fuel s search replace 0.

(** [gen_random_str]; [rand i] is what the call of [rand] for the
    character [i] returns. *)
Definition s_chars : list ascii :=
  list_ascii_of_string " :-0123456789abcdefghijklmnopqrstuvwxyzABCDEFGHIJKLMNOPQRSTUVWXYZ".

Definition gen_random_str (rand : nat -> Z) (len : nat) : list ascii :=
  map (fun i => nth (Z.to_nat (rand i mod Z.of_nat (length s_chars))) s_chars NUL)
      (seq 0 len)
  ++ [NUL].

(** What the two loops amount to, by recursion on the data: the tokens
    of a string, character by character, and the elements joined with
    the delimiter between them. *)
Fixpoint tokens (s : list ascii) (delim : ascii) : list (list ascii) :=
  match s with
  | [] => []
  | ch :: s' =>
      if Ascii.eqb delim ch then [] :: tokens s' delim
      else match tokens s' delim with
           | [] => [[ch]]
           | token :: rest => (ch :: token) :: rest
           end
  end.

Fixpoint join (elements : list (list ascii)) (delimiter : list ascii) : list ascii :=
  match elements with
  | [] => []
  | [x] => x
  | x :: elements' => x ++ delimiter ++ join elements' delimiter
  end.

(** The string without its last character when that is [delim]. *)
Definition without_final (s : list ascii) (delim : ascii) : list ascii :=
  if bool_decide (last s = Some delim) then take (length s - 1) s else s.

(** One character with [search] replaced. *)
Definition replaced (search replace ch : ascii) : ascii :=
  if Ascii.eqb search ch then replace else ch.

(** No separator of [l] stands before its last character. *)
Definition separator_only_last (l : list ascii) : Prop :=
  forall i ch, l !! i = Some ch -> is_separator ch = true -> S i = length l.

End Str.

(** ** Font ids *)

Module Font.
Import Comp.

(** [enum font_id_t]. *)
Definition FontID_Unknown : Z := -1.
Definition FontID_ProggyTiny : Z := 0.
Definition FontID_ProggyClean : Z := 1.
Definition FontID_RobotoRegular : Z := 2.
Definition FontID_RobotoCondensed : Z := 3.
Definition FontID_DroidSans : Z := 4.
Definition FontID_TTFFile : Z := 5.

(** The names of [g_font_info], in order. *)
Definition g_font_info : list (list ascii) :=
  map list_ascii_of_string
    [ "Proggy Tiny (10)"; "Proggy Clean (13)"; "Roboto Regular";
      "Roboto Condensed"; "Droid Sans" ]%string.

(** [tolower] in the C locale, and [!strcasecmp( s1, s2 )]. *)
Definition tolower (ch : ascii) : ascii :=
  if (65 <=? char_code ch) && (char_code ch <=? 90)
  then ascii_of_nat (nat_of_ascii ch + 32) else ch.

Fixpoint strcasecmp_eq (s1 s2 : list ascii) : bool :=
  match s1, s2 with
  | [], [] => true
  | c1 :: s1', c2 :: s2' => Ascii.eqb (tolower c1) (tolower c2) && strcasecmp_eq s1' s2'
  | _, _ => false
  end.

(** The loop of [get_font_id] over [g_font_info], from index [i]. *)
Fixpoint find_font (name : list ascii) (info : list (list ascii)) (i : Z) : Z :=
  match info with
  | [] => FontID_Unknown
  | n :: info' => if strcasecmp_eq name n then i else find_font name info' (i + 1)
  end.

(** [get_font_id]; [get_file_size] is the size [stat] reports, 0 for a
    file that cannot be examined, and [filename] may be the null
    pointer. *)
Definition get_font_id (get_file_size : list ascii -> Z) (name : list ascii)
    (filename : option (list ascii)) : Z :=
  match filename with
  | Some f => if negb (get_file_size f =? 0) then FontID_TTFFile
              else find_font name g_font_info 0
  | None => find_font name g_font_info 0
  end.

(** [listbox_get_fontname]: the name stored through [name] when the
    result is true. *)
Definition listbox_get_fontname (i : Z) : option (list ascii) :=
  if (0 <=? i) && (i <? Z.of_nat (length g_font_info)) then g_font_info !! Z.to_nat i
  else None.

End Font.

(** ** Facts about the log routines *)

Section LogFacts.
Import Log.

Lemma fold_push_back {A : Type} (pending visible : list A) :
  fold_left push_back pending visible = visible ++ pending.
Proof.
  revert visible.
  induction pending as [|x pending IH]; intros visible; simpl.
  - by rewrite app_nil_r.
  - rewrite IH. unfold push_back. by rewrite <- app_assoc.
Qed.

(** C6.  [logf_update] appends the lines of [g_thread_log], in the order
    they were pushed, after the lines [g_log] already holds, and leaves
    [g_thread_log] empty; the lines [g_log] held are a prefix of the
    result, unchanged.  When [g_thread_log] is empty the call changes
    nothing. *)
Theorem logf_update_moves_pending (g : globals) :
  g_log (logf_update g) = g_log g ++ g_thread_log g
  /\ g_thread_log (logf_update g) = []
  /\ g_main_tid (logf_update g) = g_main_tid g
  /\ (g_thread_log g = [] -> logf_update g = g).
Proof.
  unfold logf_update.
  destruct (g_thread_log g) as [|x pending] eqn:E; simpl.
  - rewrite ?E, app_nil_r. done.
  - rewrite fold_push_back. unfold push_back.
    rewrite <- app_assoc. repeat split; done.
Qed.

Lemma logf_update_moves_pending_witness :
  g_log (logf_update sample_globals)
    = ["start"%string; "frame"%string; "worker a"%string; "worker b"%string]
  /\ g_thread_log (logf_update sample_globals) = []
  /\ logf_update idle_globals = idle_globals.
Proof.
  split; [exact (proj1 (logf_update_moves_pending sample_globals))|].
  split; [exact (proj1 (proj2 (logf_update_moves_pending sample_globals)))|].
  exact (proj2 (proj2 (proj2 (logf_update_moves_pending idle_globals))) eq_refl).
Defined.

(** C7.  When [vasprintf] reports a negative size, [logf] drops the
    message: the globals, and so both logs, are what they were, whichever
    thread called.  [logf] is a total function with no error result, so
    nothing reaches the caller. *)
Theorem logf_negative_size_dropped (tid ret : Z) (buf : string) (g : globals) :
  ret < 0 ->
  logf tid ret buf g = g
  /\ g_log (logf tid ret buf g) = g_log g
  /\ g_thread_log (logf tid ret buf g) = g_thread_log g.
Proof.
  intros Hret. unfold logf.
  destruct (0 <=? ret) eqn:E; [apply Z.leb_le in E; lia|done].
Qed.

Lemma logf_negative_size_dropped_witness :
  logf 7 (-1) "lost"%string sample_globals = sample_globals
  /\ logf 9 (-1) "lost"%string sample_globals = sample_globals.
Proof.
  split.
  - refine (proj1 (logf_negative_size_dropped 7 (-1) "lost"%string sample_globals _)). lia.
  - refine (proj1 (logf_negative_size_dropped 9 (-1) "lost"%string sample_globals _)). lia.
Defined.

End LogFacts.

(** ** Facts about the colour table *)

Section ClrsFacts.
Import Clrs.

Implicit Types (s : state) (e : colordata_t) (col : colors_t) (c alpha : ImU32).

(** *** Packed colours *)

Lemma not32_alpha_mask : not32 IM_COL32_A_MASK = Z.ones 24.
Proof. reflexivity. Qed.

Lemma to_ImU32_mod (v : Z) : to_ImU32 v = v mod 2 ^ 32.
Proof. unfold to_ImU32. change 0xFFFFFFFF with (Z.ones 32). by rewrite Z.land_ones. Qed.

Lemma to_ImU32_small (v : Z) : 0 <= v < 2 ^ 32 -> to_ImU32 v = v.
Proof. intros H. rewrite to_ImU32_mod. by apply Z.mod_small. Qed.

(** The low 24 bits of [c] and the byte [alpha] shifted above them do
    not overlap, so or-ing them adds them. *)
Lemma alpha_override_sum c alpha :
  0 <= alpha <= 255 ->
  Z.lor (Z.land c (not32 IM_COL32_A_MASK)) (shl32 alpha IM_COL32_A_SHIFT)
  = c mod 2 ^ 24 + alpha * 2 ^ 24.
Proof.
  intros Ha.
  rewrite not32_alpha_mask, Z.land_ones by lia.
  unfold shl32, IM_COL32_A_SHIFT.
  rewrite to_ImU32_small by (rewrite Z.shiftl_mul_pow2 by lia; lia).
  rewrite Z.shiftl_mul_pow2 by lia.
  assert (Hlow : 0 <= c mod 2 ^ 24 < 2 ^ 24) by (apply Z.mod_pos_bound; lia).
  symmetry. apply Z.add_nocarry_lor.
  apply Z.bits_inj'. intros n Hn. rewrite Z.land_spec, Z.bits_0.
  destruct (Z.lt_ge_cases n 24) as [Hlt|Hge].
  - rewrite (Z.mul_pow2_bits_low alpha 24 n) by lia. apply andb_false_r.
  - rewrite (Z.mod_pow2_bits_high c 24 n) by lia. done.
Qed.

Lemma channels_of_sum c alpha :
  0 <= alpha <= 255 ->
  let v := c mod 2 ^ 24 + alpha * 2 ^ 24 in
  IM_COL32_R v = IM_COL32_R c /\ IM_COL32_G v = IM_COL32_G c
  /\ IM_COL32_B v = IM_COL32_B c /\ IM_COL32_A v = alpha.
Proof.
  intros Ha v. subst v.
  unfold IM_COL32_R, IM_COL32_G, IM_COL32_B, IM_COL32_A,
    IM_COL32_R_SHIFT, IM_COL32_G_SHIFT, IM_COL32_B_SHIFT, IM_COL32_A_SHIFT.
  change 0xFF with (Z.ones 8).
  rewrite !Z.land_ones, !Z.shiftr_div_pow2 by lia.
  change (2 ^ 0) with 1. change (2 ^ 8) with 256. change (2 ^ 16) with 65536.
  change (2 ^ 24) with 16777216.
  repeat split; Z.div_mod_to_equations; lia.
Qed.

(** *** [get], [set] and [reset] *)

(** Runs the reads of a table entry whose content [H] gives. *)
Ltac run_reads H :=
  unfold bind, colordata, assign_color, assign_modified, ret;
  repeat first [progress cbn [s_colordata s_ini] | rewrite H].

(** C1.  For a role inside the table and an override [alpha] in 0..255,
    [get] returns the stored colour with its red, green and blue bytes
    kept and [alpha] as its alpha byte, for every role: no role is left
    out, [get] does not ask [is_alpha_color].  For an [alpha] above 255
    it returns the stored colour as it is.  In both cases the state after
    the call is the state before it. *)
Theorem get_alpha_override col alpha e s :
  s_colordata s !! col = Some e ->
  (0 <= alpha <= 255 ->
     exists v, get col alpha s = Some (v, s)
       /\ v = color e mod 2 ^ 24 + alpha * 2 ^ 24
       /\ IM_COL32_R v = IM_COL32_R (color e)
       /\ IM_COL32_G v = IM_COL32_G (color e)
       /\ IM_COL32_B v = IM_COL32_B (color e)
       /\ IM_COL32_A v = alpha)
  /\ (forall inl, is_alpha_color inl col = true -> 0 <= alpha <= 255 ->
        get col alpha s = Some (color e mod 2 ^ 24 + alpha * 2 ^ 24, s))
  /\ (255 < alpha -> get col alpha s = Some (color e, s)).
Proof.
  intros He.
  assert (Hrun : 0 <= alpha <= 255 ->
    get col alpha s = Some (color e mod 2 ^ 24 + alpha * 2 ^ 24, s)).
  { intros Ha. unfold get.
    destruct (alpha <=? 255) eqn:E; [|apply Z.leb_gt in E; lia].
    run_reads He. by rewrite alpha_override_sum. }
  split; [|split]; intros Ha.
  - eexists; split; [by apply Hrun|]. split; [reflexivity|].
    apply (channels_of_sum (color e) alpha Ha).
  - intros _. apply Hrun.
  - unfold get. destruct (alpha <=? 255) eqn:E; [apply Z.leb_le in E; lia|].
    by run_reads He.
Qed.

Lemma get_alpha_override_witness :
  (exists v, get 2%nat 0x40 sample_state = Some (v, sample_state)
     /\ v = 0xFF00FFFF mod 2 ^ 24 + 0x40 * 2 ^ 24
     /\ IM_COL32_R v = IM_COL32_R 0xFF00FFFF
     /\ IM_COL32_G v = IM_COL32_G 0xFF00FFFF
     /\ IM_COL32_B v = IM_COL32_B 0xFF00FFFF
     /\ IM_COL32_A v = 0x40)
  /\ get 0%nat 0x40 sample_state
     = Some (0xFF112233 mod 2 ^ 24 + 0x40 * 2 ^ 24, sample_state)
  /\ get 2%nat 0xFFFFFFFF sample_state = Some (0xFF00FFFF, sample_state).
Proof.
  pose proof (get_alpha_override 2%nat 0x40 _ sample_state eq_refl) as H1.
  pose proof (get_alpha_override 0%nat 0x40 _ sample_state eq_refl) as H0.
  pose proof (get_alpha_override 2%nat 0xFFFFFFFF _ sample_state eq_refl) as H2.
  split; [|split].
  - apply (proj1 H1). lia.
  - apply (proj1 (proj2 H0) sample_inl); [reflexivity|lia].
  - apply (proj2 (proj2 H2)). lia.
Defined.

(** The claim of C1 as the spec words it, that on an alpha-only role the
    override is not applied, fails: on the alpha-only role
    [col_ThemeAlpha] the override 0x80 replaces the stored alpha 0xFF. *)
Lemma get_alpha_only_role_overridden :
  is_alpha_color sample_inl (col_ThemeAlpha sample_inl) = true
  /\ (color <$> s_colordata sample_state !! col_ThemeAlpha sample_inl) = Some 0xFF112233
  /\ get (col_ThemeAlpha sample_inl) 0x80 sample_state = Some (0x80112233, sample_state)
  /\ 0x80112233 <> 0xFF112233.
Proof. repeat split; done. Qed.

(** C4.  [reset] of a role inside the table makes its colour its default
    colour and changes nothing else: the entry's name, default, modified
    flag and description stay, every other entry stays, the table keeps
    its size, and the ini file is not touched. *)
Theorem reset_only_color col e s :
  s_colordata s !! col = Some e ->
  exists s' e',
    reset col s = Some (tt, s')
    /\ s_colordata s' !! col = Some e'
    /\ color e' = defcolor e
    /\ modified e' = modified e
    /\ name e' = name e /\ defcolor e' = defcolor e /\ desc e' = desc e
    /\ (forall j, j <> col -> s_colordata s' !! j = s_colordata s !! j)
    /\ length (s_colordata s') = length (s_colordata s)
    /\ s_ini s' = s_ini s.
Proof.
  intros He. unfold reset. run_reads He.
  eexists _, (with_color e (defcolor e)). split; [reflexivity|]. simpl.
  split; [apply list_lookup_insert_eq; by eapply lookup_lt_Some|].
  repeat split; try done.
  - intros j Hj. by apply list_lookup_insert_ne.
  - apply length_insert.
Qed.

Lemma reset_only_color_witness :
  exists s' e',
    reset 1%nat edited_state = Some (tt, s')
    /\ s_colordata s' !! 1%nat = Some e'
    /\ color e' = 0xFF050505
    /\ modified e' = true
    /\ name e' = "col_ClearColor"%string /\ defcolor e' = 0xFF050505
    /\ desc e' = "Window background clear color"%string
    /\ (forall j, j <> 1%nat -> s_colordata s' !! j = s_colordata edited_state !! j)
    /\ length (s_colordata s') = length (s_colordata edited_state)
    /\ s_ini s' = s_ini edited_state.
Proof. exact (reset_only_color 1%nat _ edited_state eq_refl). Defined.

(** What [set] does, by whether the colour is new. *)
Lemma set_run_ne col c e s :
  s_colordata s !! col = Some e -> c <> color e ->
  set col c s = Some (tt, {| s_colordata :=
      <[col := with_modified (with_color e c) true]> (s_colordata s);
    s_ini := s_ini s |}).
Proof.
  intros He Hc.
  assert (Hlt : (col < length (s_colordata s))%nat) by by eapply lookup_lt_Some.
  unfold set. run_reads He.
  destruct (color e =? c) eqn:E; [apply Z.eqb_eq in E; congruence|].
  simpl. rewrite He. simpl. rewrite list_lookup_insert_eq by done.
  by rewrite list_insert_insert_eq.
Qed.

Lemma set_run_eq col c e s :
  s_colordata s !! col = Some e -> c = color e -> set col c s = Some (tt, s).
Proof.
  intros He Hc. unfold set. run_reads He.
  destruct (color e =? c) eqn:E; [done|apply Z.eqb_neq in E; congruence].
Qed.

(** C5.  [set] of a role inside the table with a colour that differs from
    the current one stores the colour and raises the modified flag,
    leaving the other fields, the other entries and the ini file alone;
    with the current colour it changes nothing, flag included.  Hence a
    second [set] of the same colour changes nothing: twice is once. *)
Theorem set_marks_modified col c e s :
  s_colordata s !! col = Some e ->
  (c <> color e ->
     exists s' e',
       set col c s = Some (tt, s')
       /\ s_colordata s' !! col = Some e'
       /\ color e' = c /\ modified e' = true
       /\ name e' = name e /\ defcolor e' = defcolor e /\ desc e' = desc e
       /\ (forall j, j <> col -> s_colordata s' !! j = s_colordata s !! j)
       /\ s_ini s' = s_ini s)
  /\ (c = color e -> set col c s = Some (tt, s))
  /\ (set col c ;;; set col c) s = set col c s.
Proof.
  intros He.
  assert (Hlt : (col < length (s_colordata s))%nat) by by eapply lookup_lt_Some.
  split; [|split].
  - intros Hc. eexists _, _. split; [by apply set_run_ne|]. simpl.
    split; [by apply list_lookup_insert_eq|].
    repeat split; try done.
    intros j Hj. by apply list_lookup_insert_ne.
  - by apply set_run_eq.
  - unfold bind at 1. destruct (decide (c = color e)) as [Hc|Hc].
    + rewrite (set_run_eq col c e s He Hc). by apply set_run_eq with e.
    + rewrite (set_run_ne col c e s He Hc).
      apply set_run_eq with (with_modified (with_color e c) true); [|done].
      simpl. by apply list_lookup_insert_eq.
Qed.

Lemma set_marks_modified_witness :
  (exists s' e',
     set 1%nat 0xFF0000FF sample_state = Some (tt, s')
     /\ s_colordata s' !! 1%nat = Some e'
     /\ color e' = 0xFF0000FF /\ modified e' = true
     /\ name e' = "col_ClearColor"%string /\ defcolor e' = 0xFF050505
     /\ desc e' = "Window background clear color"%string
     /\ (forall j, j <> 1%nat -> s_colordata s' !! j = s_colordata sample_state !! j)
     /\ s_ini s' = s_ini sample_state)
  /\ set 1%nat 0xFF050505 sample_state = Some (tt, sample_state).
Proof.
  pose proof (set_marks_modified 1%nat 0xFF0000FF _ sample_state eq_refl) as H1.
  pose proof (set_marks_modified 1%nat 0xFF050505 _ sample_state eq_refl) as H2.
  split.
  - apply (proj1 H1). simpl. lia.
  - apply (proj1 (proj2 H2)). reflexivity.
Defined.

(** *** The loops of [init] and [shutdown] *)

Lemma lookup_after (pre rest : list colordata_t) e :
  (pre ++ e :: rest) !! length pre = Some e.
Proof. by apply list_lookup_middle. Qed.

Lemma insert_after (pre rest : list colordata_t) e e' :
  <[length pre := e']> (pre ++ e :: rest) = pre ++ e' :: rest.
Proof.
  replace (length pre) with (length pre + 0)%nat at 1 by lia.
  by rewrite insert_app_r.
Qed.

Lemma snoc_cons (pre rest : list colordata_t) e :
  pre ++ e :: rest = (pre ++ [e]) ++ rest.
Proof. by rewrite <- app_assoc. Qed.

Lemma length_snoc (pre : list colordata_t) e : S (length pre) = length (pre ++ [e]).
Proof. rewrite length_app. simpl. lia. Qed.

(** One turn of the loop of [init], at the entry that follows [pre]. *)
Lemma init_entry_run pre e rest ini :
  init_entry (length pre) {| s_colordata := pre ++ e :: rest; s_ini := ini |}
  = Some (tt, {| s_colordata := pre ++ load_override ini e :: rest; s_ini := ini |}).
Proof.
  unfold init_entry, ini_GetUint64, GetUint64, load_override.
  run_reads (lookup_after pre rest e). simpl.
  destruct (ini_values ini !! (imgui_colors, name e)) as [[txt|v]|]; simpl; try done.
  destruct (v =? UINT64_MAX); simpl; [done|].
  by rewrite lookup_after, insert_after.
Qed.

Lemma init_loop rest : forall pre ini,
  for_colors_from (length rest) (length pre) init_entry
    {| s_colordata := pre ++ rest; s_ini := ini |}
  = Some (tt, {| s_colordata := pre ++ map (load_override ini) rest; s_ini := ini |}).
Proof.
  induction rest as [|e rest IH]; intros pre ini; simpl.
  - done.
  - unfold bind at 1. rewrite init_entry_run.
    rewrite snoc_cons, (length_snoc pre (load_override ini e)), IH.
    by rewrite <- app_assoc.
Qed.

Lemma init_run s :
  init s = Some (tt, {| s_colordata := map (load_override (s_ini s)) (s_colordata s);
                        s_ini := s_ini s |}).
Proof.
  destruct s as [tbl ini]. unfold init, for_colors, col_Max. simpl.
  apply (init_loop tbl [] ini).
Qed.

(** Replaying puts on the file appends them to its record of puts. *)
Lemma ini_puts_replay (ps : list ini_put) : forall f,
  ini_puts (fold_left do_put ps f) = ini_puts f ++ ps.
Proof.
  induction ps as [|p ps IH]; intros f; simpl.
  - by rewrite app_nil_r.
  - rewrite IH. destruct p; simpl; by rewrite <- app_assoc.
Qed.

(** One turn of the loop of [shutdown]. *)
Lemma shutdown_entry_run pre e rest ini :
  shutdown_entry (length pre) {| s_colordata := pre ++ e :: rest; s_ini := ini |}
  = Some (tt, {| s_colordata := pre ++ e :: rest;
                 s_ini := fold_left do_put (overrides_written [e]) ini |}).
Proof.
  unfold shutdown_entry, is_default, overrides_written, override_put,
    ini_PutStr, ini_PutUint64.
  destruct e as [nm c d m ds]. cbn [name color defcolor modified].
  destruct m, (c =? d) eqn:E;
    unfold bind, colordata, ret;
    repeat first [progress cbn [s_colordata s_ini name color defcolor modified
                                  fold_left map List.filter do_put]
                 | rewrite lookup_after | rewrite E ];
    done.
Qed.

Lemma overrides_written_cons e rest :
  overrides_written (e :: rest) = overrides_written [e] ++ overrides_written rest.
Proof. unfold overrides_written. simpl. by destruct (modified e). Qed.

Lemma shutdown_loop rest : forall pre ini,
  for_colors_from (length rest) (length pre) shutdown_entry
    {| s_colordata := pre ++ rest; s_ini := ini |}
  = Some (tt, {| s_colordata := pre ++ rest;
                 s_ini := fold_left do_put (overrides_written rest) ini |}).
Proof.
  induction rest as [|e rest IH]; intros pre ini; simpl.
  - done.
  - unfold bind at 1. rewrite shutdown_entry_run.
    rewrite snoc_cons, (length_snoc pre e), IH.
    by rewrite (overrides_written_cons e rest), fold_left_app, <- app_assoc.
Qed.

Lemma shutdown_run s :
  shutdown s = Some (tt, {| s_colordata := s_colordata s;
                            s_ini := fold_left do_put (overrides_written (s_colordata s)) (s_ini s) |}).
Proof.
  destruct s as [tbl ini]. unfold shutdown, for_colors, col_Max. simpl.
  apply (shutdown_loop tbl [] ini).
Qed.

(** *** [init] *)

Lemma load_override_fields ini e :
  name (load_override ini e) = name e
  /\ defcolor (load_override ini e) = defcolor e
  /\ desc (load_override ini e) = desc e
  /\ modified (load_override ini e) = modified e.
Proof.
  unfold load_override.
  destruct (ini_values ini !! (imgui_colors, name e)) as [[txt|v]|]; try done.
  by destruct (v =? UINT64_MAX).
Qed.

(** C3, as the code has it.  [init] always completes; it reads the ini
    file and does not write it; the table keeps its size, and every
    entry keeps its name, default, description and modified flag.  When
    the file holds an integer for the entry's name under the colours'
    section and that integer is not the all-ones 64-bit value, the
    entry's colour becomes the low 32 bits of it, which is the integer
    itself when it fits a packed colour.  When nothing is under the
    name, or the blank text, or the all-ones value, the colour is
    kept.  So no modified flag is raised: if none was set before
    [init], none is set after. *)
Theorem init_loads_overrides s :
  exists s',
    init s = Some (tt, s')
    /\ s_ini s' = s_ini s
    /\ length (s_colordata s') = length (s_colordata s)
    /\ (forall i e, s_colordata s !! i = Some e ->
          exists e',
            s_colordata s' !! i = Some e'
            /\ name e' = name e /\ defcolor e' = defcolor e /\ desc e' = desc e
            /\ modified e' = modified e
            /\ (forall v,
                  ini_values (s_ini s) !! (imgui_colors, name e) = Some (IniUint64 v) ->
                  v <> UINT64_MAX ->
                  color e' = to_ImU32 v /\ (0 <= v < 2 ^ 32 -> color e' = v))
            /\ (ini_values (s_ini s) !! (imgui_colors, name e) = None
                 \/ ini_values (s_ini s) !! (imgui_colors, name e)
                      = Some (IniStr EmptyString)
                 \/ ini_values (s_ini s) !! (imgui_colors, name e)
                      = Some (IniUint64 UINT64_MAX) ->
                color e' = color e))
    /\ ((forall e, e ∈ s_colordata s -> modified e = false) ->
        forall e', e' ∈ s_colordata s' -> modified e' = false).
Proof.
  eexists. split; [apply init_run|]. cbn [s_colordata s_ini].
  split; [done|]. split; [apply length_map|]. split.
  - intros i e He. exists (load_override (s_ini s) e).
    split; [by rewrite list_lookup_fmap, He|].
    destruct (load_override_fields (s_ini s) e) as (? & ? & ? & ?).
    repeat (split; [done|]). unfold load_override. split.
    + intros v Hv Hne. rewrite Hv.
      destruct (v =? UINT64_MAX) eqn:E; [apply Z.eqb_eq in E; done|].
      split; [done|]. intros Hv32. simpl. by apply to_ImU32_small.
    + by intros [->|[->| ->]].
  - intros Hnone e' He'. apply list_elem_of_fmap in He' as (e & -> & He).
    destruct (load_override_fields (s_ini s) e) as (_ & _ & _ & ->). by apply Hnone.
Qed.

Lemma init_loads_overrides_witness :
  exists s',
    init sentinel_state = Some (tt, s')
    /\ (color <$> s_colordata s' !! 2%nat) = Some 0x80404040
    /\ (color <$> s_colordata s' !! 1%nat) = Some 0xFF050505
    /\ (color <$> s_colordata s' !! 0%nat) = Some 0xFF112233
    /\ (forall e', e' ∈ s_colordata s' -> modified e' = false).
Proof.
  destruct (init_loads_overrides sentinel_state) as (s' & Hrun & _ & _ & Hent & Hflag).
  exists s'. split; [exact Hrun|].
  destruct (Hent 2%nat _ eq_refl) as (e2 & -> & _ & _ & _ & _ & Hload2 & _).
  destruct (Hent 1%nat _ eq_refl) as (e1 & -> & _ & _ & _ & _ & _ & Hkeep1).
  destruct (Hent 0%nat _ eq_refl) as (e0 & -> & _ & _ & _ & _ & _ & Hkeep0).
  split; [|split; [|split]].
  - simpl. f_equal. apply (Hload2 0x80404040); [reflexivity|done|done].
  - simpl. f_equal. apply Hkeep1. right. right. reflexivity.
  - simpl. f_equal. apply Hkeep0. left. reflexivity.
  - apply Hflag. intros e He. vm_compute in He.
    repeat (apply elem_of_cons in He as [->|He]; [reflexivity|]).
    by apply elem_of_nil in He.
Defined.

(** The claim of C3 as the spec words it, that a value present in the
    file always becomes the colour, fails for the all-ones value: it is
    in the file under the name of entry 1, and [init] leaves that
    entry's colour as it was. *)
Lemma init_keeps_color_on_all_ones :
  ini_values (s_ini sentinel_state) !! (imgui_colors, "col_ClearColor"%string)
    = Some (IniUint64 UINT64_MAX)
  /\ (name <$> s_colordata sentinel_state !! 1%nat) = Some "col_ClearColor"%string
  /\ exists s',
       init sentinel_state = Some (tt, s')
       /\ (color <$> s_colordata s' !! 1%nat) = Some 0xFF050505
       /\ 0xFF050505 <> UINT64_MAX
       /\ 0xFF050505 <> to_ImU32 UINT64_MAX.
Proof.
  split; [reflexivity|]. split; [reflexivity|].
  eexists. split; [apply init_run|]. repeat split; done.
Qed.

(** *** [shutdown] *)

(** The puts of [shutdown], read off the table: one per modified entry. *)
Lemma elem_of_overrides_written (tbl : list colordata_t) (p : ini_put) :
  p ∈ overrides_written tbl <->
  exists e, e ∈ tbl /\ modified e = true
    /\ ((color e = defcolor e /\ p = WrStr (name e) EmptyString imgui_colors)
        \/ (color e <> defcolor e /\ p = WrUint64 (name e) (color e) imgui_colors)).
Proof.
  unfold overrides_written. rewrite list_elem_of_fmap. split.
  - intros (e & -> & He). apply list_elem_of_In, List.filter_In in He as [He Hm].
    exists e. split; [by apply list_elem_of_In|]. split; [done|].
    unfold override_put. destruct (color e =? defcolor e) eqn:E.
    + left. by apply Z.eqb_eq in E.
    + right. by apply Z.eqb_neq in E.
  - intros (e & He & Hm & Hp). exists e. split.
    + unfold override_put. destruct Hp as [[Hc ->]|[Hc ->]].
      * by rewrite (proj2 (Z.eqb_eq _ _) Hc).
      * by rewrite (proj2 (Z.eqb_neq _ _) Hc).
    + apply list_elem_of_In, List.filter_In. split; [by apply list_elem_of_In|done].
Qed.

(** An entry whose colour is its default never has its colour put, as
    long as no other entry bears its name. *)
Lemma no_color_put_at_default (tbl : list colordata_t) col e :
  tbl !! col = Some e -> color e = defcolor e -> NoDup (name <$> tbl) ->
  forall v section, WrUint64 (name e) v section ∉ overrides_written tbl.
Proof.
  intros He Hdef Hnd v section Hin.
  apply elem_of_overrides_written in Hin as (e' & He' & _ & [[_ Hp]|[Hne Hp]]); [done|].
  injection Hp as Hname _ _.
  apply list_elem_of_lookup in He' as [j Hj].
  assert (j = col) as ->.
  { apply (NoDup_lookup (name <$> tbl) j col (name e)); [done| |].
    - by rewrite list_lookup_fmap, Hj, Hname.
    - by rewrite list_lookup_fmap, He. }
  congruence.
Qed.

(** C2.  [shutdown] always completes, and the puts it makes on the ini
    file are, in table order, exactly one per entry whose modified flag
    is set: a blank text under the entry's name when its colour equals
    its default, its colour under its name otherwise, both in the
    colours' section; an entry whose flag is not set causes no put.  In
    particular, with distinct names in the table, after [set] of a role
    to its default colour a [shutdown] puts no colour under that role's
    name. *)
Theorem shutdown_puts_modified_entries s :
  (exists s',
     shutdown s = Some (tt, s')
     /\ ini_puts (s_ini s') = ini_puts (s_ini s) ++ overrides_written (s_colordata s))
  /\ (forall p, p ∈ overrides_written (s_colordata s) <->
        exists e, e ∈ s_colordata s /\ modified e = true
          /\ ((color e = defcolor e /\ p = WrStr (name e) EmptyString imgui_colors)
              \/ (color e <> defcolor e /\ p = WrUint64 (name e) (color e) imgui_colors)))
  /\ (forall col e,
        s_colordata s !! col = Some e -> NoDup (name <$> s_colordata s) ->
        exists s1 s2 new,
          set col (defcolor e) s = Some (tt, s1)
          /\ shutdown s1 = Some (tt, s2)
          /\ ini_puts (s_ini s2) = ini_puts (s_ini s) ++ new
          /\ forall v section, WrUint64 (name e) v section ∉ new).
Proof.
  split; [|split].
  - eexists. split; [apply shutdown_run|]. cbn [s_ini]. apply ini_puts_replay.
  - apply elem_of_overrides_written.
  - intros col e He Hnd.
    assert (Hlt : (col < length (s_colordata s))%nat) by by eapply lookup_lt_Some.
    destruct (decide (defcolor e = color e)) as [Hc|Hc].
    + eexists s, _, (overrides_written (s_colordata s)).
      split; [by eapply set_run_eq|]. split; [apply shutdown_run|].
      cbn [s_ini]. split; [apply ini_puts_replay|].
      by apply (no_color_put_at_default _ col e).
    + eexists _, _, _. split; [by apply set_run_ne|]. split; [apply shutdown_run|].
      cbn [s_ini s_colordata]. split; [apply ini_puts_replay|].
      set (e1 := with_modified (with_color e (defcolor e)) true).
      apply (no_color_put_at_default _ col e1).
      * by apply list_lookup_insert_eq.
      * done.
      * rewrite list_fmap_insert. change (name e1) with (name e).
        rewrite list_insert_id; [done|]. by rewrite list_lookup_fmap, He.
Qed.

Lemma shutdown_puts_modified_entries_witness :
  exists s1 s2 new,
    set 1%nat 0xFF050505 edited_state = Some (tt, s1)
    /\ shutdown s1 = Some (tt, s2)
    /\ ini_puts (s_ini s2) = ini_puts (s_ini edited_state) ++ new
    /\ forall v section, WrUint64 "col_ClearColor"%string v section ∉ new.
Proof.
  refine (proj2 (proj2 (shutdown_puts_modified_entries edited_state)) 1%nat _ eq_refl _).
  apply (bool_decide_unpack _). vm_compute. exact I.
Defined.

(** C10.  [shutdown] does not write the table: after it every entry,
    with its colour, default, name, description and modified flag, is
    what it was.  No flag is cleared by being saved, so a second
    [shutdown] run right after the first makes the same puts again. *)
Theorem shutdown_keeps_table s :
  exists s1 s2,
    shutdown s = Some (tt, s1)
    /\ s_colordata s1 = s_colordata s
    /\ shutdown s1 = Some (tt, s2)
    /\ s_colordata s2 = s_colordata s
    /\ ini_puts (s_ini s1) = ini_puts (s_ini s) ++ overrides_written (s_colordata s)
    /\ ini_puts (s_ini s2) = ini_puts (s_ini s1) ++ overrides_written (s_colordata s).
Proof.
  eexists _, _. split; [apply shutdown_run|]. cbn [s_colordata s_ini].
  split; [done|]. split; [apply shutdown_run|]. cbn [s_colordata s_ini].
  split; [done|]. by rewrite !ini_puts_replay.
Qed.

End ClrsFacts.

(** ** Facts about the hash colours *)

Section F32Facts.
Import F32.

(** The number of binary digits, as the standard library counts them. *)
Lemma digits2_pos_log2 (p : positive) : Zpos (digits2_pos p) = Z.log2 (Zpos p) + 1.
Proof.
  induction p as [p IH|p IH|]; simpl digits2_pos.
  - rewrite Pos2Z.inj_succ, IH, (Pos2Z.inj_xI p), Z.log2_succ_double by lia. lia.
  - rewrite Pos2Z.inj_succ, IH, (Pos2Z.inj_xO p), Z.log2_double by lia. lia.
  - reflexivity.
Qed.

Lemma digits2_pos_24 (m : positive) :
  2 ^ 23 <= Zpos m < 2 ^ 24 -> Zpos (digits2_pos m) = 24.
Proof.
  intros H. rewrite digits2_pos_log2, (Z.log2_unique (Zpos m) 23); lia.
Qed.

Lemma digits2_pos_24_inv (m : positive) :
  Zpos (digits2_pos m) = 24 -> 2 ^ 23 <= Zpos m < 2 ^ 24.
Proof.
  rewrite digits2_pos_log2. intros H.
  assert (Hl : Z.log2 (Zpos m) = 23) by lia.
  pose proof (Z.log2_spec (Zpos m) ltac:(lia)) as Hs. rewrite Hl in Hs.
  change (Z.succ 23) with 24 in Hs. lia.
Qed.

Lemma digits2_pos_iter_xO (k p : positive) :
  digits2_pos (Pos.iter xO p k) = (digits2_pos p + k)%positive.
Proof.
  induction k as [|k IH] using Pos.peano_ind.
  - simpl. lia.
  - rewrite Pos.iter_succ. simpl. rewrite IH. lia.
Qed.

(** Discharges the side conditions on exponents. *)
Ltac exponent_arith := unfold fexp, emin, prec, emax; lia.

Ltac no_shift e :=
  replace (fexp prec emax (24 + e) - e) with 0 by exponent_arith;
  cbn [shr shr_m].

Ltac in_range e :=
  replace (e <=? emax - prec) with true
    by (symmetry; apply Z.leb_le; unfold emax, prec; lia).

(** Rounding a mantissa that already has 24 digits: kept when exact,
    the next one when more than half a unit is left over. *)
Lemma round_aux_exact (m : positive) (e : Z) :
  2 ^ 23 <= Zpos m < 2 ^ 24 -> -149 <= e <= 104 ->
  binary_round_aux prec emax false (Zpos m) e loc_Exact = S754_finite false m e.
Proof.
  intros Hm He. unfold binary_round_aux, shr_fexp.
  cbn [Zdigits2 shr_record_of_loc]. rewrite (digits2_pos_24 m Hm). no_shift e.
  cbn [loc_of_shr_record round_nearest_even Zdigits2 shr_record_of_loc].
  rewrite (digits2_pos_24 m Hm). no_shift e. in_range e. reflexivity.
Qed.

Lemma round_aux_up (m : positive) (e : Z) :
  2 ^ 23 <= Zpos m -> Zpos m + 1 < 2 ^ 24 -> -149 <= e <= 104 ->
  binary_round_aux prec emax false (Zpos m) e (loc_Inexact Gt)
  = S754_finite false (m + 1) e.
Proof.
  intros Hlo Hhi He. unfold binary_round_aux, shr_fexp.
  cbn [Zdigits2 shr_record_of_loc]. rewrite (digits2_pos_24 m) by lia. no_shift e.
  cbn [loc_of_shr_record round_nearest_even].
  change (Zpos m + 1) with (Zpos (m + 1)).
  cbn [Zdigits2 shr_record_of_loc].
  rewrite (digits2_pos_24 (m + 1)) by lia. no_shift e. in_range e. reflexivity.
Qed.

(** Rounding 2^24 itself: one digit too many, shifted out exactly. *)
Lemma round_aux_carry (e : Z) :
  -47 <= e <= 0 ->
  binary_round_aux prec emax false 16777216 e loc_Exact
  = S754_finite false 8388608 (e + 1).
Proof.
  intros He. unfold binary_round_aux, shr_fexp.
  cbn [Zdigits2 shr_record_of_loc]. change (Zpos (digits2_pos 16777216)) with 25.
  replace (fexp prec emax (25 + e) - e) with 1 by exponent_arith.
  cbn [shr SpecFloat.iter_pos shr_1 orb shr_m loc_of_shr_record round_nearest_even
       Zdigits2 shr_record_of_loc].
  change (Zpos (digits2_pos 8388608)) with 24.
  no_shift (e + 1). in_range (e + 1). reflexivity.
Qed.

(** An integer below 2^24 converts exactly, to a 24-digit mantissa and
    an exponent between -23 and 0. *)
Lemma of_uint_normal (p : positive) :
  Zpos p < 2 ^ 24 ->
  exists m e, of_uint (Zpos p) = S754_finite false m e
    /\ 2 ^ 23 <= Zpos m < 2 ^ 24 /\ -23 <= e <= 0.
Proof.
  intros Hp. unfold of_uint, of_Z_exp, binary_normalize, binary_round.
  pose proof (digits2_pos_log2 p) as Hd.
  assert (Hlog : 0 <= Z.log2 (Zpos p) < 24).
  { split; [apply Z.log2_nonneg|]. apply Z.log2_lt_pow2; lia. }
  assert (Hf : fexp prec emax (Zpos (digits2_pos p) + 0) = Zpos (digits2_pos p) - 24)
    by exponent_arith.
  unfold shl_align. rewrite Hf, Z.sub_0_r.
  destruct (Zpos (digits2_pos p) - 24) as [|k|k] eqn:Ek; [|lia|].
  - exists p, 0. assert (Hm : 2 ^ 23 <= Zpos p < 2 ^ 24).
    { apply digits2_pos_24_inv. lia. }
    split; [apply round_aux_exact; lia|]. split; [done|lia].
  - set (m := Pos.iter xO p k).
    assert (Hm : 2 ^ 23 <= Zpos m < 2 ^ 24).
    { apply digits2_pos_24_inv. unfold m. rewrite digits2_pos_iter_xO. lia. }
    exists m, (Zneg k).
    split; [apply round_aux_exact; lia|]. split; [done|lia].
Qed.

Lemma div_eucl_unique (a b q r : Z) :
  0 <= r < b -> a = b * q + r -> Z.div_eucl a b = (q, r).
Proof.
  intros Hr Ha.
  pose proof (Z.div_unique_pos a b q r Hr Ha) as Hq.
  pose proof (Z.mod_unique_pos a b q r Hr Ha) as Hm.
  unfold Z.div, Z.modulo in Hq, Hm.
  destruct (Z.div_eucl a b) as [q' r']. congruence.
Qed.

(** Dividing a 24-digit mantissa by 2^24 - 1: the quotient of
    [m * 2^24] is [m] with remainder [m], more than half the divisor,
    except for the divisor itself. *)
Lemma div_core_max24 (m : positive) (e : Z) :
  2 ^ 23 <= Zpos m < 2 ^ 24 -> -23 <= e <= 0 ->
  SFdiv_core_binary prec emax (Zpos m) e 16777215 0
  = if decide (Zpos m = 16777215) then (16777216, e - 24, loc_Exact)
    else (Zpos m, e - 24, loc_Inexact Gt).
Proof.
  intros Hm He. unfold SFdiv_core_binary. cbn [Zdigits2].
  rewrite (digits2_pos_24 m Hm). change (Zpos (digits2_pos 16777215)) with 24.
  replace (Z.min (fexp prec emax (24 + e - (24 + 0))) (e - 0)) with (e - 24)
    by exponent_arith.
  replace (e - 0 - (e - 24)) with 24 by lia. cbv zeta iota beta.
  rewrite Z.shiftl_mul_pow2 by lia.
  destruct (decide (Zpos m = 16777215)) as [Heq|Hne].
  - rewrite Heq. reflexivity.
  - rewrite (div_eucl_unique (Zpos m * 2 ^ 24) 16777215 (Zpos m) (Zpos m)) by lia.
    unfold new_location. change (Z.even 16777215) with false. cbv iota.
    unfold new_location_odd. cbn [Z.eqb].
    rewrite (proj2 (Z.compare_gt_iff (2 * Zpos m + 1) 16777215)) by lia.
    reflexivity.
Qed.

Lemma div_max24 (m : positive) (e : Z) :
  2 ^ 23 <= Zpos m < 2 ^ 24 -> -23 <= e <= 0 ->
  div (S754_finite false m e) (of_uint 16777215)
  = if decide (Zpos m = 16777215) then S754_finite false 8388608 (e - 23)
    else S754_finite false (m + 1) (e - 24).
Proof.
  intros Hm He. change (of_uint 16777215) with (S754_finite false 16777215 0).
  unfold div, SFdiv. rewrite (div_core_max24 m e Hm He). cbn [xorb].
  destruct (decide (Zpos m = 16777215)) as [Heq|Hne].
  - rewrite round_aux_carry by lia. f_equal. lia.
  - apply round_aux_up; lia.
Qed.

Lemma leb_one_low (m : positive) (e : Z) :
  e < -23 -> leb (S754_finite false m e) one = true.
Proof.
  intros He. change one with (S754_finite false 8388608 (-23)).
  unfold leb, SFleb, SFcompare. by rewrite (proj2 (Z.compare_lt_iff e (-23)) He).
Qed.

(** The quotient of an integer below 2^24 by 2^24 - 1 is in [0, 1]. *)
Lemma div_max24_unit (n : Z) :
  0 <= n < 2 ^ 24 ->
  leb zero (div (of_uint n) (of_uint 16777215)) = true
  /\ leb (div (of_uint n) (of_uint 16777215)) one = true.
Proof.
  intros Hn. destruct n as [|p|p]; [done| |lia].
  destruct (of_uint_normal p) as (m & e & -> & Hm & He); [lia|].
  rewrite (div_max24 m e Hm He).
  destruct (decide (Zpos m = 16777215)) as [Heq|Hne].
  - split; [done|]. destruct (decide (e = 0)) as [->|He0]; [done|].
    apply leb_one_low. lia.
  - split; [done|]. apply leb_one_low. lia.
Qed.

End F32Facts.

Section HashColorFacts.
Import F32 HashColor.

(** [hashval_v] depends on the top byte only, and is in range at each of
    its 256 values. *)
Lemma v_in_range_all : forallb v_in_range (seq 0 256) = true.
Proof. vm_compute. reflexivity. Qed.

Lemma hashval_v_top_byte (hashval : Z) :
  0 <= hashval ->
  hashval_v hashval = hashval_v (Z.shiftl (Z.shiftr hashval 24) 24).
Proof.
  intros H. unfold hashval_v. do 3 f_equal.
  rewrite Z.shiftr_shiftl_l, Z.sub_diag by lia. reflexivity.
Qed.

Lemma hashval_v_range (hashval : Z) :
  0 <= hashval < 2 ^ 32 ->
  leb half (hashval_v hashval) = true /\ leb (hashval_v hashval) one = true.
Proof.
  intros Hh. rewrite hashval_v_top_byte by lia.
  assert (Hb : 0 <= Z.shiftr hashval 24 < 256).
  { rewrite Z.shiftr_div_pow2 by lia. split.
    - apply Z.div_pos; lia.
    - apply Z.div_lt_upper_bound; lia. }
  pose proof (proj1 (forallb_forall v_in_range (seq 0 256)) v_in_range_all
                (Z.to_nat (Z.shiftr hashval 24))) as Hall.
  unfold v_in_range in Hall. rewrite Z2Nat.id in Hall by lia.
  apply andb_true_iff, Hall, in_seq. lia.
Qed.

Lemma hashval_h_range (hashval : Z) :
  0 <= hashval < 2 ^ 32 ->
  leb zero (hashval_h hashval) = true /\ leb (hashval_h hashval) one = true.
Proof.
  intros Hh. unfold hashval_h. apply div_max24_unit.
  change 0xffffff with (Z.ones 24). rewrite Z.land_ones by lia.
  apply Z.mod_pos_bound. lia.
Qed.

(** C8, as the code has it.  [imgui_col_from_hashval] is a function of
    its three arguments alone: it hands ImGui's conversion the hue
    computed from the low 24 bits of the hash, the given saturation,
    the value computed from the high 8 bits, and the given alpha, so
    equal arguments give equal colours.  For every 32-bit hash the hue
    lies in the closed interval [0, 1] and the value in the closed
    interval [0.5, 1]; both upper ends are reached. *)
Theorem hashval_hue_value_closed (ImColor : Type)
    (ImColor_HSV : spec_float -> spec_float -> spec_float -> spec_float -> ImColor)
    (ImColor_to_ImU32 : ImColor -> Z)
    (hashval : Z) (sat alpha : spec_float) :
  0 <= hashval < 2 ^ 32 ->
  imgui_col_from_hashval ImColor ImColor_HSV ImColor_to_ImU32 hashval sat alpha
    = ImColor_to_ImU32 (ImColor_HSV (hashval_h hashval) sat (hashval_v hashval) alpha)
  /\ (forall hashval' sat' alpha',
        hashval' = hashval -> sat' = sat -> alpha' = alpha ->
        imgui_col_from_hashval ImColor ImColor_HSV ImColor_to_ImU32 hashval' sat' alpha'
        = imgui_col_from_hashval ImColor ImColor_HSV ImColor_to_ImU32 hashval sat alpha)
  /\ leb zero (hashval_h hashval) = true
  /\ leb (hashval_h hashval) one = true
  /\ leb half (hashval_v hashval) = true
  /\ leb (hashval_v hashval) one = true
  /\ hashval_h 0x00FFFFFF = one
  /\ hashval_v 0xFF000000 = one.
Proof.
  intros Hh. split; [reflexivity|]. split; [by intros ? ? ? -> -> ->|].
  destruct (hashval_h_range hashval Hh) as [Hh0 Hh1].
  destruct (hashval_v_range hashval Hh) as [Hv0 Hv1].
  repeat (split; [done|]). split; reflexivity.
Qed.

Lemma hashval_hue_value_closed_witness :
  imgui_col_from_hashval bool sample_HSV sample_to_ImU32 0x80000001 half one
    = sample_to_ImU32 (sample_HSV (hashval_h 0x80000001) half (hashval_v 0x80000001) one)
  /\ leb zero (hashval_h 0x80000001) = true
  /\ leb (hashval_h 0x80000001) one = true
  /\ leb half (hashval_v 0x80000001) = true
  /\ leb (hashval_v 0x80000001) one = true.
Proof.
  assert (Hh : 0 <= 0x80000001 < 2 ^ 32) by lia.
  destruct (hashval_hue_value_closed bool sample_HSV sample_to_ImU32
              0x80000001 half one Hh) as (H1 & _ & H2 & H3 & H4 & H5 & _).
  repeat split; assumption.
Defined.

(** The claim of C8 as the spec words it, with half-open intervals,
    fails at both upper ends: the hash 0x00FFFFFF has hue exactly one,
    and the hash 0xFF000000 has value exactly one. *)
Lemma hashval_hue_value_reach_one :
  hashval_h 0x00FFFFFF = one
  /\ ltb (hashval_h 0x00FFFFFF) one = false
  /\ hashval_v 0xFF000000 = one
  /\ ltb (hashval_v 0xFF000000) one = false.
Proof. repeat split; vm_compute; reflexivity. Qed.

End HashColorFacts.

(** ** Facts about the complement *)

Section RoundingFacts.
Import F32 Complement.

Ltac exponent_arith := unfold fexp, emin, prec, emax; lia.

Ltac in_range e :=
  replace (e <=? emax - prec) with true
    by (symmetry; apply Z.leb_le; unfold emax, prec; lia).


(** Shifting a mantissa right, one digit at a time. *)
Lemma iter_pos_nat {A} (f : A -> A) (p : positive) : forall x,
  SpecFloat.iter_pos f p x = Nat.iter (Pos.to_nat p) f x.
Proof.
  induction p as [p IH|p IH|]; intros x; cbn [SpecFloat.iter_pos].
  - rewrite !IH, Pos2Nat.inj_xI. 
    replace (S (2 * Pos.to_nat p)) with (Pos.to_nat p + (Pos.to_nat p + 1))%nat by lia.
    rewrite !Nat.iter_add. reflexivity.
  - rewrite !IH, Pos2Nat.inj_xO.
    replace (2 * Pos.to_nat p)%nat with (Pos.to_nat p + Pos.to_nat p)%nat by lia.
    rewrite Nat.iter_add. reflexivity.
  - reflexivity.
Qed.

Lemma shr_1_nonneg (m : Z) (r s : bool) :
  0 <= m ->
  shr_1 {| shr_m := m; shr_r := r; shr_s := s |}
  = {| shr_m := m / 2; shr_r := Z.odd m; shr_s := r || s |}.
Proof.
  intros Hm. destruct m as [|p|p]; [reflexivity| |lia].
  destruct p as [p|p|]; cbn [shr_1].
  - f_equal. rewrite Pos2Z.inj_xI. apply (Z.div_unique_pos _ 2 _ 1); lia.
  - f_equal. rewrite Pos2Z.inj_xO. apply (Z.div_unique_pos _ 2 _ 0); lia.
  - reflexivity.
Qed.

Lemma shr_iter (M : Z) (n : nat) :
  0 <= M ->
  Nat.iter (S n) shr_1 {| shr_m := M; shr_r := false; shr_s := false |}
  = {| shr_m := M / 2 ^ (Z.of_nat n + 1); shr_r := Z.testbit M (Z.of_nat n);
       shr_s := negb (M mod 2 ^ Z.of_nat n =? 0) |}.
Proof.
  intros HM. induction n as [|n IH].
  - cbn [Nat.iter]. rewrite shr_1_nonneg by done. change (Z.of_nat 0) with 0.
    rewrite Z.mod_1_r. reflexivity.
  - change (Nat.iter (S (S n)) shr_1 ?x) with (shr_1 (Nat.iter (S n) shr_1 x)).
    rewrite IH, shr_1_nonneg by (apply Z.div_pos; lia).
    rewrite Nat2Z.inj_succ. f_equal.
    + rewrite Z.div_div by lia. f_equal.
      replace (Z.succ (Z.of_nat n) + 1) with (Z.succ (Z.of_nat n + 1)) by lia.
      rewrite Z.pow_succ_r by lia. lia.
    + rewrite Z.testbit_odd, Z.shiftr_div_pow2 by lia. f_equal.
    + rewrite Z.testbit_odd, Z.shiftr_div_pow2 by lia.
      pose proof (Z.div_mod M (2 ^ Z.of_nat n) ltac:(lia)) as Hdm.
      pose proof (Z.mod_pos_bound M (2 ^ Z.of_nat n) ltac:(lia)) as Hb.
      pose proof (Z.div_mod (M / 2 ^ Z.of_nat n) 2 ltac:(lia)) as Hd2.
      pose proof (Z.mod_pos_bound (M / 2 ^ Z.of_nat n) 2 ltac:(lia)) as Hb2.
      rewrite Zmod_odd in Hd2.
      set (q := M / 2 ^ Z.of_nat n) in *. set (r := M mod 2 ^ Z.of_nat n) in *.
      assert (Hs : M mod 2 ^ Z.succ (Z.of_nat n)
                   = (if Z.odd q then 1 else 0) * 2 ^ Z.of_nat n + r).
      { symmetry. apply (Z.mod_unique_pos _ _ (q / 2)).
        - rewrite Z.pow_succ_r by lia. destruct (Z.odd q); lia.
        - rewrite Z.pow_succ_r by lia. destruct (Z.odd q); nia. }
      rewrite Hs. destruct (Z.odd q); destruct (Z.eqb_spec r 0); cbn [orb negb];
        match goal with |- context [?a =? 0] => destruct (Z.eqb_spec a 0) end;
        try reflexivity; lia.
Qed.

Lemma digits2_pos_bounds (m : positive) (d : Z) :
  0 < d -> 2 ^ (d - 1) <= Zpos m < 2 ^ d -> Zpos (digits2_pos m) = d.
Proof.
  intros Hd H. rewrite digits2_pos_log2, (Z.log2_unique (Zpos m) (d - 1)); try lia.
  replace (Z.succ (d - 1)) with d by lia. lia.
Qed.

(** [round_shift] is within half a unit of the exact quotient, and is
    the quotient when nothing is left over. *)
Lemma round_shift_bounds (M k : Z) :
  0 <= M -> 0 < k ->
  M / 2 ^ k <= round_shift M k <= M / 2 ^ k + 1
  /\ Z.abs (round_shift M k * 2 ^ k - M) <= 2 ^ (k - 1)
  /\ (M mod 2 ^ k = 0 -> round_shift M k = M / 2 ^ k).
Proof.
  intros HM Hk. unfold round_shift.
  pose proof (Z.div_mod M (2 ^ k) ltac:(lia)) as Hdm.
  pose proof (Z.mod_pos_bound M (2 ^ k) ltac:(lia)) as Hb.
  set (q := M / 2 ^ k) in *. set (r := M mod 2 ^ k) in *.
  assert (Hp : 2 ^ k = 2 * 2 ^ (k - 1)).
  { rewrite <- Z.pow_succ_r by lia. f_equal. lia. }
  assert (Hp1 : 0 < 2 ^ (k - 1)) by lia.
  (* the bit below the cut and the rest *)
  assert (Hbit : Z.testbit M (k - 1) = (2 ^ (k - 1) <=? r)
                 /\ M mod 2 ^ (k - 1) = if 2 ^ (k - 1) <=? r then r - 2 ^ (k - 1) else r).
  { rewrite Z.testbit_odd, Z.shiftr_div_pow2 by lia.
    destruct (Z.leb_spec (2 ^ (k - 1)) r) as [Hle|Hlt].
    - assert (Hq : M / 2 ^ (k - 1) = 2 * q + 1).
      { symmetry. apply (Z.div_unique_pos _ _ _ (r - 2 ^ (k - 1))); nia. }
      split.
      + rewrite Hq, Z.add_comm, Z.odd_add_mul_2. reflexivity.
      + symmetry. apply (Z.mod_unique_pos _ _ (2 * q + 1)); nia.
    - assert (Hq : M / 2 ^ (k - 1) = 2 * q).
      { symmetry. apply (Z.div_unique_pos _ _ _ r); nia. }
      split.
      + rewrite Hq, Z.odd_mul. reflexivity.
      + symmetry. apply (Z.mod_unique_pos _ _ (2 * q)); nia. }
  destruct Hbit as [-> ->].
  destruct (Z.leb_spec (2 ^ (k - 1)) r) as [Hle|Hlt].
  - destruct (Z.eqb_spec (r - 2 ^ (k - 1)) 0) as [Hz|Hnz]; cbn [negb].
    + destruct (Z.even q); repeat split; try lia; nia.
    + repeat split; try lia; nia.
  - repeat split; try lia; nia.
Qed.

(** Rounding a sum with [k] digits too many. *)
Lemma normalize_shift (M k : positive) (e : Z) :
  2 ^ (23 + Zpos k) <= Zpos M < 2 ^ (24 + Zpos k) -> -149 <= e + Zpos k <= 103 ->
  binary_normalize prec emax (Zpos M) e false
  = if round_shift (Zpos M) (Zpos k) <? 2 ^ 24
    then S754_finite false (Z.to_pos (round_shift (Zpos M) (Zpos k))) (e + Zpos k)
    else S754_finite false 8388608 (e + Zpos k + 1).
Proof.
  intros HM He. unfold binary_normalize, binary_round.
  assert (Hd : Zpos (digits2_pos M) = 24 + Zpos k).
  { apply digits2_pos_bounds; [lia|]. by replace (24 + Zpos k - 1) with (23 + Zpos k) by lia. }
  rewrite Hd.
  replace (fexp prec emax (24 + Zpos k + e)) with (e + Zpos k) by exponent_arith.
  unfold shl_align. replace (e + Zpos k - e) with (Zpos k) by lia. cbv iota.
  unfold binary_round_aux, shr_fexp. cbn [Zdigits2 shr_record_of_loc]. rewrite Hd.
  replace (fexp prec emax (24 + Zpos k + e) - e) with (Zpos k) by exponent_arith.
  cbn [shr]. rewrite iter_pos_nat.
  destruct (Pos2Nat.is_succ k) as [n Hn]. rewrite Hn, shr_iter by lia.
  assert (Hk : Zpos k = Z.of_nat n + 1) by lia.
  assert (Hr : round_nearest_even (Zpos M / 2 ^ (Z.of_nat n + 1))
                 (loc_of_shr_record
                    {| shr_m := Zpos M / 2 ^ (Z.of_nat n + 1);
                       shr_r := Z.testbit (Zpos M) (Z.of_nat n);
                       shr_s := negb (Zpos M mod 2 ^ Z.of_nat n =? 0) |})
               = round_shift (Zpos M) (Zpos k)).
  { unfold round_shift. rewrite Hk. replace (Z.of_nat n + 1 - 1) with (Z.of_nat n) by lia.
    destruct (Z.testbit _ _), (negb _); reflexivity. }
  cbn [shr_m]. rewrite Hr. clear Hr.
  destruct (round_shift_bounds (Zpos M) (Zpos k)) as (Hq & _ & _); [lia..|].
  assert (Hquo : 2 ^ 23 <= Zpos M / 2 ^ Zpos k < 2 ^ 24).
  { split.
    - apply Z.div_le_lower_bound; [lia|]. rewrite <- Z.pow_add_r by lia.
      replace (Zpos k + 23) with (23 + Zpos k) by lia. lia.
    - apply Z.div_lt_upper_bound; [lia|]. rewrite <- Z.pow_add_r by lia.
      replace (Zpos k + 24) with (24 + Zpos k) by lia. lia. }
  set (R := round_shift (Zpos M) (Zpos k)) in *.
  destruct (Z.ltb_spec R (2 ^ 24)) as [Hlt|Hge].
  - destruct R as [|R'|R'] eqn:ER; [lia| |lia].
    cbn [Zdigits2]. rewrite (digits2_pos_24 R') by lia.
    replace (fexp prec emax (24 + (e + Zpos k)) - (e + Zpos k)) with 0 by exponent_arith.
    cbn [shr shr_m]. in_range (e + Zpos k). reflexivity.
  - assert (R = 16777216) as -> by lia.
    cbn [Zdigits2]. change (Zpos (digits2_pos 16777216)) with 25.
    replace (fexp prec emax (25 + (e + Zpos k)) - (e + Zpos k)) with 1 by exponent_arith.
    cbn [shr SpecFloat.iter_pos shr_1 orb shr_m]. in_range (e + Zpos k + 1). reflexivity.
Qed.

Lemma iter_xO_pow2 (p d : positive) : Zpos (Pos.iter xO p d) = Zpos p * 2 ^ Zpos d.
Proof.
  induction d as [|d IH] using Pos.peano_ind.
  - cbn [Pos.iter]. lia.
  - rewrite Pos.iter_succ, Pos2Z.inj_xO, IH, Pos2Z.inj_succ, Z.pow_succ_r by lia. lia.
Qed.

(** [h + 0.5f] for a positive [h] below one half. *)
Lemma add_half_low (m : positive) (e : Z) :
  Zpos m < 2 ^ 24 -> -149 <= e <= -25 ->
  exists T, 2 ^ 23 <= T <= 2 ^ 24
    /\ add (S754_finite false m e) half
       = (if T <? 2 ^ 24 then S754_finite false (Z.to_pos T) (-24) else one)
    /\ Z.abs (T * 2 ^ 125 - (Zpos m * 2 ^ (e + 149) + 2 ^ 148)) <= 2 ^ 124.
Proof.
  intros Hm He. change half with (S754_finite false 8388608 (-24)).
  unfold add, SFadd. replace (Z.min e (-24)) with e by lia.
  unfold shl_align. rewrite Z.sub_diag. cbv iota. cbn [fst cond_Zopp].
  destruct (e - -24) as [|d|d] eqn:Ed; [lia|lia|]. cbn [fst].
  assert (Hd : Zpos d = -24 - e) by lia.
  change (Zpos m + Zpos (Pos.iter xO 8388608%positive d))
    with (Zpos (m + Pos.iter xO 8388608%positive d)%positive).
  assert (HM : Zpos (m + Pos.iter xO 8388608%positive d)%positive = Zpos m + 2 ^ (23 + Zpos d)).
  { rewrite Pos2Z.inj_add, iter_xO_pow2, Z.pow_add_r by lia. lia. }
  assert (Hpow : 2 ^ (24 + Zpos d) = 2 * 2 ^ (23 + Zpos d)).
  { rewrite <- Z.pow_succ_r by lia. f_equal. lia. }
  assert (H24 : 2 ^ 24 <= 2 ^ (23 + Zpos d)).
  { apply Z.pow_le_mono_r; lia. }
  rewrite (normalize_shift _ d) by (rewrite ?HM; lia).
  replace (e + Zpos d) with (-24) by lia. change (-24 + 1) with (-23).
  set (R := round_shift _ _).
  destruct (round_shift_bounds (Zpos (m + Pos.iter xO 8388608%positive d)%positive) (Zpos d))
    as (Hq & Herr & _); [lia..|]. fold R in Hq, Herr.
  assert (Hquo : 2 ^ 23 <= Zpos (m + Pos.iter xO 8388608%positive d)%positive / 2 ^ Zpos d < 2 ^ 24).
  { rewrite HM. split.
    - apply Z.div_le_lower_bound; [lia|]. rewrite <- Z.pow_add_r by lia.
      replace (Zpos d + 23) with (23 + Zpos d) by lia. lia.
    - apply Z.div_lt_upper_bound; [lia|]. rewrite <- Z.pow_add_r by lia.
      replace (Zpos d + 24) with (24 + Zpos d) by lia. lia. }
  exists R. split; [lia|]. split.
  { destruct (R <? 2 ^ 24); reflexivity. }
  rewrite HM in Herr.
  assert (He1 : 2 ^ 125 = 2 ^ Zpos d * 2 ^ (e + 149)).
  { rewrite <- Z.pow_add_r by lia. f_equal. lia. }
  assert (He2 : 2 ^ 148 = 2 ^ (23 + Zpos d) * 2 ^ (e + 149)).
  { rewrite <- Z.pow_add_r by lia. f_equal. lia. }
  assert (He3 : 2 ^ 124 = 2 ^ (Zpos d - 1) * 2 ^ (e + 149)).
  { rewrite <- Z.pow_add_r by lia. f_equal. lia. }
  rewrite He1, He2, He3.
  replace (R * (2 ^ Zpos d * 2 ^ (e + 149))
           - (Zpos m * 2 ^ (e + 149) + 2 ^ (23 + Zpos d) * 2 ^ (e + 149)))
    with ((R * 2 ^ Zpos d - (Zpos m + 2 ^ (23 + Zpos d))) * 2 ^ (e + 149)) by ring.
  rewrite Z.abs_mul, (Z.abs_eq (2 ^ (e + 149))) by lia.
  apply Z.mul_le_mono_nonneg_r; lia.
Qed.

(** [h + 0.5f] for [h] from one half up to, not including, one. *)
Lemma add_half_high (m : positive) :
  2 ^ 23 <= Zpos m < 2 ^ 24 ->
  exists T, 2 ^ 23 <= T <= 2 ^ 23 + 2 ^ 22
    /\ add (S754_finite false m (-24)) half = S754_finite false (Z.to_pos T) (-23)
    /\ Z.abs (T * 2 ^ 126 - (Zpos m * 2 ^ 125 + 2 ^ 148)) <= 2 ^ 125
    /\ (Z.even (Zpos m) = true -> T * 2 ^ 126 = Zpos m * 2 ^ 125 + 2 ^ 148).
Proof.
  intros Hm. change half with (S754_finite false 8388608 (-24)).
  unfold add, SFadd. change (Z.min (-24) (-24)) with (-24).
  unfold shl_align. change (-24 - -24) with 0. cbv iota. cbn [fst cond_Zopp].
  change (Zpos m + 8388608) with (Zpos (m + 8388608)%positive).
  rewrite (normalize_shift _ 1 (-24)) by (change (23 + 1) with 24; change (24 + 1) with 25; lia).
  change (-24 + 1) with (-23).
  set (R := round_shift _ _).
  destruct (round_shift_bounds (Zpos (m + 8388608)%positive) 1) as (Hq & Herr & Hex); [lia..|].
  fold R in Hq, Herr, Hex. change (2 ^ 1) with 2 in *. change (2 ^ (1 - 1)) with 1 in *.
  assert (Hquo : 2 ^ 23 <= Zpos (m + 8388608)%positive / 2 < 2 ^ 23 + 2 ^ 22).
  { split; [apply Z.div_le_lower_bound; lia|apply Z.div_lt_upper_bound; lia]. }
  assert (HR : (R <? 2 ^ 24) = true) by (apply Z.ltb_lt; lia). rewrite HR.
  exists R. split; [lia|]. split; [reflexivity|]. split.
  - rewrite Pos2Z.inj_add in Herr. lia.
  - intros Hev. rewrite Hex.
    + rewrite Pos2Z.inj_add.
      pose proof (Z.div_mod (Zpos m + 8388608) 2 ltac:(lia)) as Hdm.
      rewrite Zmod_even, Z.even_add, Hev in Hdm. cbn in Hdm. lia.
    + rewrite Pos2Z.inj_add, Zmod_even, Z.even_add, Hev. reflexivity.
Qed.

(** [t - 1.0f] for [t] above one and at most one and a half: exact. *)
Lemma sub_one_exact (T : positive) :
  2 ^ 23 < Zpos T <= 2 ^ 23 + 2 ^ 22 ->
  exists m e, sub (S754_finite false T (-23)) one = S754_finite false m e
    /\ 2 ^ 23 <= Zpos m < 2 ^ 24 /\ -46 <= e <= -24
    /\ Zpos m * 2 ^ (e + 149) = (Zpos T - 2 ^ 23) * 2 ^ 126.
Proof.
  intros HT. change one with (S754_finite false 8388608 (-23)).
  unfold sub, SFsub. change (Z.min (-23) (-23)) with (-23).
  unfold shl_align. change (-23 - -23) with 0. cbv iota. cbn [fst cond_Zopp].
  set (p := (T - 8388608)%positive).
  assert (Hp : Zpos p = Zpos T - 2 ^ 23) by (unfold p; lia).
  replace (Zpos T - 8388608) with (Zpos p) by lia.
  unfold binary_normalize, binary_round.
  pose proof (digits2_pos_log2 p) as Hd.
  assert (Hlog : 0 <= Z.log2 (Zpos p) < 23).
  { split; [apply Z.log2_nonneg|]. apply Z.log2_lt_pow2; lia. }
  set (d := Zpos (digits2_pos p)) in *.
  replace (fexp prec emax (d + -23)) with (d - 47) by exponent_arith.
  unfold shl_align.
  destruct (d - 47 - -23) as [|c|c] eqn:Ec; [lia|lia|].
  set (m := Pos.iter xO p c).
  assert (Hm : 2 ^ 23 <= Zpos m < 2 ^ 24).
  { apply digits2_pos_24_inv. unfold m. rewrite digits2_pos_iter_xO. lia. }
  exists m, (d - 47). split; [apply round_aux_exact; lia|].
  split; [done|]. split; [lia|].
  unfold m. rewrite iter_xO_pow2, Hp, <- Z.mul_assoc, <- Z.pow_add_r by lia.
  do 2 f_equal. lia.
Qed.

(** The binary32 numbers from zero to one, by shape. *)
Lemma unit_interval_shape (h : spec_float) :
  unit_interval h = true ->
  (exists s, h = S754_zero s)
  \/ (exists m e, h = S754_finite false m e /\ Zpos m < 2 ^ 24 /\ -149 <= e <= -25)
  \/ (exists m, h = S754_finite false m (-24) /\ 2 ^ 23 <= Zpos m < 2 ^ 24)
  \/ h = one.
Proof.
  unfold unit_interval. intros H.
  apply andb_true_iff in H as [H H1]. apply andb_true_iff in H as [Hv H0].
  destruct h as [s|s| |s m e]; [left; by exists s|by destruct s|done|].
  destruct s; [done|]. right. clear H0.
  cbn [valid_binary] in Hv. unfold bounded, canonical_mantissa in Hv.
  apply andb_true_iff in Hv as [Hc _]. apply Z.eqb_eq in Hc.
  pose proof (digits2_pos_log2 m) as Hd.
  pose proof (Z.log2_spec (Zpos m) ltac:(lia)) as Hlog.
  change one with (S754_finite false 8388608 (-23)) in H1.
  unfold leb, SFleb, SFcompare in H1.
  destruct (Z.compare_spec e (-23)) as [He|He|He]; [| |done].
  - subst e. right. right.
    assert (Hm : Zpos (digits2_pos m) = 24) by (revert Hc; exponent_arith).
    apply digits2_pos_24_inv in Hm.
    rewrite Pos.compare_cont_spec in H1. cbn [Pos.switch_Eq] in H1.
    destruct (m ?= 8388608)%positive eqn:Ecmp; [|exfalso|done].
    + apply Pos.compare_eq in Ecmp. by subst m.
    + assert (Hlt : Zpos m < 8388608) by exact Ecmp. lia.
  - assert (Hm : Zpos m < 2 ^ 24).
    { assert (Hle : Z.log2 (Zpos m) < 24) by (revert Hc; exponent_arith).
      apply Z.log2_lt_pow2; lia. }
    destruct (decide (e = -24)) as [->|Hne].
    + right. left. exists m. split; [done|]. apply digits2_pos_24_inv.
      revert Hc. exponent_arith.
    + left. exists m, e. split; [done|]. split; [done|]. revert Hc. exponent_arith.
Qed.

(** The results of the rotation: normal numbers above zero, at most one. *)
Lemma normal_unit_interval (m : positive) (e : Z) :
  2 ^ 23 <= Zpos m < 2 ^ 24 -> -46 <= e <= -24 ->
  unit_interval (S754_finite false m e) = true
  /\ ltb zero (S754_finite false m e) = true.
Proof.
  intros Hm He. split; [|reflexivity].
  unfold unit_interval. cbn [valid_binary]. unfold bounded, canonical_mantissa.
  rewrite (digits2_pos_24 m Hm).
  replace (fexp prec emax (24 + e) =? e) with true
    by (symmetry; apply Z.eqb_eq; exponent_arith).
  replace (e <=? emax - prec) with true
    by (symmetry; apply Z.leb_le; unfold emax, prec; lia).
  cbn [andb]. change (leb zero (S754_finite false m e)) with true. cbn [andb].
  apply leb_one_low. lia.
Qed.

Lemma ltb_one_above (T : positive) :
  2 ^ 23 < Zpos T -> ltb one (S754_finite false T (-23)) = true.
Proof.
  intros HT. change one with (S754_finite false 8388608 (-23)).
  unfold ltb, SFltb, SFcompare. cbn [Z.compare Pos.compare Z.opp].
  rewrite Pos.compare_cont_spec, Pos.compare_refl. cbn [Pos.switch_Eq].
  assert (H : (8388608 ?= T)%positive = Lt) by exact HT.
  by rewrite H.
Qed.

(** One turn of the rotation, in units of 2^-149. *)
Lemma rotate_hue_units (h : spec_float) :
  unit_interval h = true ->
  unit_interval (rotate_hue h) = true
  /\ ltb zero (rotate_hue h) = true
  /\ ((units h < 2 ^ 148
       /\ 2 ^ 148 <= units (rotate_hue h) <= 2 ^ 149
       /\ Z.abs (units (rotate_hue h) - (units h + 2 ^ 148)) <= 2 ^ 124)
      \/ (2 ^ 148 <= units h
          /\ rotate_hue h = one
          /\ units h <= 2 ^ 148 + 2 ^ 125)
      \/ (2 ^ 148 <= units h
          /\ 0 < units (rotate_hue h) <= 2 ^ 148
          /\ Z.abs (units (rotate_hue h) - (units h - 2 ^ 148)) <= 2 ^ 125
          /\ (units h mod 2 ^ 126 = 0 -> units (rotate_hue h) = units h - 2 ^ 148))).
Proof.
  intros Hu.
  destruct (unit_interval_shape h Hu) as [[s ->]|[(m & e & -> & Hm & He)|[(m & -> & Hm)| ->]]].
  - (* zero *)
    assert (Hr : rotate_hue (S754_zero s) = half) by (by destruct s).
    rewrite Hr. split; [reflexivity|]. split; [reflexivity|]. left.
    cbn [units]. change (units half) with (2 ^ 148). lia.
  - (* below one half *)
    destruct (add_half_low m e Hm He) as (T & HT & Hadd & Herr).
    assert (He' : 0 < 2 ^ (e + 149) <= 2 ^ 124).
    { split; [lia|]. apply Z.pow_le_mono_r; lia. }
    assert (Hx : units (S754_finite false m e) < 2 ^ 148).
    { cbn [units cond_Zopp]. change (2 ^ 148) with (2 ^ 24 * 2 ^ 124). nia. }
    unfold rotate_hue. cbv zeta. rewrite Hadd.
    destruct (Z.ltb_spec T (2 ^ 24)) as [Hlt|Hge].
    + destruct T as [|T'|T'] eqn:ET; [lia| |lia]. cbn [Z.to_pos].
      assert (Hcmp : ltb one (S754_finite false T' (-24)) = false) by reflexivity.
      rewrite Hcmp. destruct (normal_unit_interval T' (-24)) as [Hu' Hpos]; [lia..|].
      split; [done|]. split; [done|]. left. split; [done|].
      cbn [units cond_Zopp] in *. change (-24 + 149) with 125. lia.
    + assert (T = 2 ^ 24) as -> by lia.
      change (ltb one one) with false. cbv iota.
      split; [reflexivity|]. split; [reflexivity|]. left. split; [done|].
      change (units one) with (2 ^ 149). cbn [units cond_Zopp] in *. lia.
  - (* from one half up *)
    destruct (add_half_high m Hm) as (T & HT & Hadd & Herr & Hex).
    assert (Hx : units (S754_finite false m (-24)) = Zpos m * 2 ^ 125) by reflexivity.
    unfold rotate_hue. cbv zeta. rewrite Hadd, Hx.
    destruct T as [|T'|T'] eqn:ET; [lia| |lia]. cbn [Z.to_pos].
    destruct (decide (Zpos T' = 2 ^ 23)) as [Heq|Hne].
    + assert (T' = 8388608%positive) as -> by lia.
      change (S754_finite false 8388608 (-23)) with one in *.
      change (ltb one one) with false. cbv iota.
      split; [reflexivity|]. split; [reflexivity|]. right. left.
      split; [lia|]. split; [done|]. lia.
    + rewrite ltb_one_above by lia.
      destruct (sub_one_exact T') as (m' & e' & -> & Hm' & He' & Hval); [lia|].
      destruct (normal_unit_interval m' e') as [Hu' Hpos]; [lia..|].
      split; [done|]. split; [done|]. right. right.
      cbn [units cond_Zopp]. rewrite Hval. split; [lia|]. split; [lia|]. split; [lia|].
      intros Hmod. enough (Hev : Z.even (Zpos m) = true) by (specialize (Hex Hev); lia).
      rewrite <- Z.negb_odd. apply negb_true_iff.
      destruct (Z.odd (Zpos m)) eqn:Hodd; [exfalso|done].
      pose proof (Z.div_mod (Zpos m) 2 ltac:(lia)) as Hdm.
      rewrite Zmod_odd, Hodd in Hdm.
      pose proof (Z.div_mod (Zpos m * 2 ^ 125) (2 ^ 126) ltac:(lia)) as Hdm2.
      rewrite Hmod in Hdm2. lia.
  - (* one *)
    assert (Hr : rotate_hue one = half) by (vm_compute; reflexivity).
    rewrite Hr. split; [reflexivity|]. split; [reflexivity|]. right. right.
    change (units one) with (2 ^ 149). change (units half) with (2 ^ 148).
    split; [lia|]. split; [lia|]. split; [lia|]. lia.
Qed.


(** Two turns of the rotation bring a hue back to within 3 * 2^-25, or
    to one when the hue was that near zero. *)
Lemma rotate_hue_twice (h : spec_float) :
  unit_interval h = true ->
  Z.abs (units (rotate_hue (rotate_hue h)) - units h) <= 3 * 2 ^ 124
  \/ (rotate_hue (rotate_hue h) = one /\ units h <= 3 * 2 ^ 124).
Proof.
  intros Hu.
  destruct (rotate_hue_units h Hu) as (Hu1 & _ & Hcase).
  destruct (rotate_hue_units (rotate_hue h) Hu1) as (_ & _ & Hcase2).
  assert (Hx : 0 <= units h).
  { destruct (unit_interval_shape h Hu)
      as [[s ->]|[(m & e & -> & _)|[(m & -> & _)| ->]]]; cbn [units cond_Zopp]; try lia.
    change (units one) with (2 ^ 149). lia. }
  destruct Hcase as [(Hlo & Hy & Herr)|[(Hhi & Hone & Hnear)|(Hhi & Hy & Herr & _)]].
  - destruct Hcase2 as [(Hlo2 & _)|[(_ & Hone2 & Hnear2)|(_ & _ & Herr2 & _)]]; [lia| |].
    + right. split; [done|]. lia.
    + left. lia.
  - left. rewrite Hone.
    assert (Hr : rotate_hue one = half) by (vm_compute; reflexivity).
    rewrite Hr. change (units half) with (2 ^ 148). lia.
  - destruct Hcase2 as [(Hlo2 & _ & Herr2)|[(Hhi2 & Hone2 & _)|(Hhi2 & Hy2 & _ & Hex2)]].
    + left. lia.
    + left. rewrite Hone2. change (units one) with (2 ^ 149). lia.
    + assert (Heq : units (rotate_hue h) = 2 ^ 148) by lia.
      rewrite Hex2 in Hy2; [lia|]. rewrite Heq. reflexivity.
Qed.

(** The comparison with one, by cases. *)
Lemma compare_one_eq (t : spec_float) : SFcompare one t = Some Eq -> t = one.
Proof.
  change one with (S754_finite false 8388608 (-23)).
  destruct t as [s|s| |s m e]; cbn [SFcompare]; try discriminate.
  - destruct s; discriminate.
  - destruct s; [discriminate|].
    destruct (Z.compare_spec (-23) e) as [He|He|He]; try discriminate.
    rewrite Pos.compare_cont_spec. cbn [Pos.switch_Eq].
    destruct (8388608 ?= m)%positive eqn:Ecmp; try discriminate.
    apply Pos.compare_eq in Ecmp. by subst.
Qed.

(** The rotation of the code against the rotation modulo one: they
    part only where the sum is exactly one. *)
Lemma rotate_hue_mod_one_cases (h : spec_float) :
  (add h half <> one /\ rotate_hue h = rotate_hue_mod_one h)
  \/ (add h half = one /\ rotate_hue h = one /\ rotate_hue_mod_one h = zero).
Proof.
  unfold rotate_hue, rotate_hue_mod_one. cbv zeta.
  unfold ltb, leb, SFltb, SFleb.
  destruct (SFcompare one (add h half)) as [[| |]|] eqn:Ecmp.
  - right. apply compare_one_eq in Ecmp. rewrite Ecmp. by repeat split.
  - left. split; [|reflexivity]. intros Heq. by rewrite Heq in Ecmp.
  - left. split; [|reflexivity]. intros Heq. by rewrite Heq in Ecmp.
  - left. split; [|reflexivity]. intros Heq. by rewrite Heq in Ecmp.
Qed.

End RoundingFacts.

Section ComplementFacts.
Import F32 Complement.

(** What the rotation does to a hue from zero to one, and the
    complement of a complement. *)
Lemma complement_rest (ImColor : Type)
    (ImColor_HSV : spec_float -> spec_float -> spec_float -> spec_float -> ImColor)
    (ImColor_to_ImU32 : ImColor -> Z) (ImColor_of_ImU32 : Z -> ImVec4)
    (ColorConvertRGBtoHSV :
       spec_float -> spec_float -> spec_float -> spec_float * spec_float * spec_float)
    (col : Z) (h : spec_float) :
  (forall c h0 s0 v0,
     hsv_of ImColor_of_ImU32 ColorConvertRGBtoHSV c = (h0, s0, v0) ->
     imgui_col_complement ImColor ImColor_HSV ImColor_to_ImU32 ImColor_of_ImU32
       ColorConvertRGBtoHSV c
     = ImColor_to_ImU32 (ImColor_HSV (rotate_hue h0) s0 v0 one)) ->
  (unit_interval h = true ->
   unit_interval (rotate_hue h) = true
   /\ ltb zero (rotate_hue h) = true
   /\ (Z.abs (units (rotate_hue (rotate_hue h)) - units h) <= 3 * 2 ^ 124
       \/ (rotate_hue (rotate_hue h) = one /\ units h <= 3 * 2 ^ 124)))
  /\ (forall s' v',
      hsv_of ImColor_of_ImU32 ColorConvertRGBtoHSV
        (imgui_col_complement ImColor ImColor_HSV ImColor_to_ImU32 ImColor_of_ImU32
           ColorConvertRGBtoHSV col) = (rotate_hue h, s', v') ->
      imgui_col_complement ImColor ImColor_HSV ImColor_to_ImU32 ImColor_of_ImU32
        ColorConvertRGBtoHSV
        (imgui_col_complement ImColor ImColor_HSV ImColor_to_ImU32 ImColor_of_ImU32
           ColorConvertRGBtoHSV col)
      = ImColor_to_ImU32 (ImColor_HSV (rotate_hue (rotate_hue h)) s' v' one)).
Proof.
  intros Hrun. split.
  - intros Hu. destruct (rotate_hue_units h Hu) as (Hu1 & Hpos & _).
    split; [done|]. split; [done|]. by apply rotate_hue_twice.
  - intros s' v' Hback. by apply Hrun.
Qed.




End ComplementFacts.

(** ** Facts about the [comp_] names *)

Section CompFacts.
Import Comp.

Example comp_str_create_val_samples :
  comp_str_create_val 0 = list_ascii_of_string "comp_1.0.0"
  /\ comp_str_create_val 71 = list_ascii_of_string "comp_2.3.8"
  /\ comp_str_create_val 72 = []
  /\ fmt_u 4294967295 = list_ascii_of_string "4294967295".
Proof. repeat split; reflexivity. Qed.

Lemma u32_small (v : Z) : 0 <= v < 2 ^ 32 -> u32 v = v.
Proof. intros H. unfold u32. by apply Z.mod_small. Qed.

(** X1.  [comp_val_to_abc] always yields [c] in 0..8, [b] in 0..3 and [a] at
    least 1, from which [comp_abc_to_val] gives the value back; it
    reports success exactly for the values below 72. *)
Theorem comp_val_to_abc_to_val (val : Z) :
  0 <= val < 2 ^ 32 ->
  exists a b c,
    comp_val_to_abc val = (val <? 72, (a, b, c))
    /\ comp_abc_to_val a b c = val
    /\ 1 <= a /\ 0 <= b <= 3 /\ 0 <= c <= 8.
Proof.
  intros Hv. unfold comp_val_to_abc, comp_abc_to_val. cbv zeta.
  assert (Hq0 : 0 <= val / 36 /\ val / 36 * 36 <= val).
  { split; [apply Z.div_pos; lia|]. pose proof (Z.mul_div_le val 36). lia. }
  assert (Ha : u32 (val / 36 + 1) = val / 36 + 1) by (apply u32_small; lia).
  rewrite Ha. exists (val / 36 + 1), ((val / 9) mod 4), (val mod 9). split; [|split].
  - f_equal.
    destruct (val <? 72) eqn:E; [apply Z.ltb_lt in E|apply Z.ltb_ge in E].
    + apply Z.leb_le. assert (val / 36 < 2) by (apply Z.div_lt_upper_bound; lia). lia.
    + apply Z.leb_gt. assert (2 <= val / 36) by (apply Z.div_le_lower_bound; lia). lia.
  - replace (val / 36 + 1 - 1) with (val / 36) by lia.
    assert (Hq : 0 <= val / 36 * 36 <= val).
    { pose proof (Z.mul_div_le val 36). assert (0 <= val / 36) by (apply Z.div_pos; lia). lia. }
    assert (Hb : 0 <= (val / 9) mod 4 < 4) by (apply Z.mod_pos_bound; lia).
    assert (Hc : 0 <= val mod 9 < 9) by (apply Z.mod_pos_bound; lia).
    assert (Hsum : val / 36 * 36 + (val / 9) mod 4 * 9 + val mod 9 = val).
    { Z.div_mod_to_equations. lia. }
    rewrite (u32_small (val / 36)) by lia.
    rewrite (u32_small (val / 36 * 36)) by lia.
    rewrite (u32_small ((val / 9) mod 4 * 9)) by lia.
    rewrite (u32_small (val / 36 * 36 + (val / 9) mod 4 * 9)) by lia.
    rewrite Hsum. by apply u32_small.
  - assert (0 <= val / 36) by (apply Z.div_pos; lia).
    assert (Hb : 0 <= (val / 9) mod 4 < 4) by (apply Z.mod_pos_bound; lia).
    assert (Hc : 0 <= val mod 9 < 9) by (apply Z.mod_pos_bound; lia).
    lia.
Qed.

Lemma comp_val_to_abc_to_val_witness :
  exists a b c,
    comp_val_to_abc 71 = (71 <? 72, (a, b, c))
    /\ comp_abc_to_val a b c = 71
    /\ 1 <= a /\ 0 <= b <= 3 /\ 0 <= c <= 8.
Proof. apply (comp_val_to_abc_to_val 71). lia. Defined.

(** X2.  The other way round: for [a] at least 1, [b] in 0..3 and [c] in
    0..8, as long as the value fits 32 bits, [comp_val_to_abc] of
    [comp_abc_to_val] gives [a], [b] and [c] back, and succeeds exactly
    when [a] is at most 2. *)
Theorem comp_abc_to_val_to_abc (a b c : Z) :
  1 <= a -> (a - 1) * 36 + 35 < 2 ^ 32 -> 0 <= b <= 3 -> 0 <= c <= 8 ->
  comp_abc_to_val a b c = (a - 1) * 36 + b * 9 + c
  /\ comp_val_to_abc (comp_abc_to_val a b c) = (a <=? 2, (a, b, c)).
Proof.
  intros Ha Hfit Hb Hc.
  assert (Hval : comp_abc_to_val a b c = (a - 1) * 36 + b * 9 + c).
  { unfold comp_abc_to_val.
    rewrite (u32_small (a - 1)) by lia. rewrite (u32_small ((a - 1) * 36)) by lia.
    rewrite (u32_small (b * 9)) by lia.
    rewrite (u32_small ((a - 1) * 36 + b * 9)) by lia. apply u32_small. lia. }
  split; [done|]. rewrite Hval. unfold comp_val_to_abc. cbv zeta.
  set (val := (a - 1) * 36 + b * 9 + c).
  assert (H36 : val / 36 = a - 1).
  { symmetry. apply (Z.div_unique val 36 (a - 1) (b * 9 + c)); lia. }
  assert (H9 : val / 9 = (a - 1) * 4 + b).
  { symmetry. apply (Z.div_unique val 9 ((a - 1) * 4 + b) c); lia. }
  assert (Hm9 : val mod 9 = c).
  { symmetry. apply (Z.mod_unique val 9 ((a - 1) * 4 + b) c); lia. }
  assert (Hm4 : ((a - 1) * 4 + b) mod 4 = b).
  { symmetry. apply (Z.mod_unique _ 4 (a - 1) b); lia. }
  rewrite H36, H9, Hm9, Hm4. replace (a - 1 + 1) with a by lia.
  rewrite (u32_small a) by lia. reflexivity.
Qed.

Lemma comp_abc_to_val_to_abc_witness :
  comp_abc_to_val 2 3 8 = (2 - 1) * 36 + 3 * 9 + 8
  /\ comp_val_to_abc (comp_abc_to_val 2 3 8) = (2 <=? 2, (2, 3, 8)).
Proof. apply (comp_abc_to_val_to_abc 2 3 8); lia. Defined.

(** A digit character is the [%u] text of its value. *)
Lemma digit_char (ch : ascii) :
  isdigit ch = true ->
  0 <= u32 (char_code ch - char_code "0"%char) <= 9
  /\ fmt_u (u32 (char_code ch - char_code "0"%char)) = [ch].
Proof.
  destruct ch as [[] [] [] [] [] [] [] []]; intros H;
    try (exfalso; vm_compute in H; discriminate H);
    (split; [split; vm_compute; discriminate|vm_compute; reflexivity]).
Qed.

Lemma strncmp_eq_take (pfx : list ascii) : forall str,
  strncmp_eq str pfx (length pfx) = true -> take (length pfx) str = pfx.
Proof.
  induction pfx as [|c pfx IH]; intros str H; [done|].
  destruct str as [|c' str]; [done|]. simpl in H.
  apply andb_true_iff in H as [Hc H]. apply Ascii.eqb_eq in Hc as ->.
  simpl. f_equal. by apply IH.
Qed.

(** What [strncmp] tells of the first five characters. *)
Lemma strncmp_eq_char_at (comp : list ascii) :
  strncmp_eq comp (list_ascii_of_string "comp_") 5
  = Ascii.eqb (char_at comp 0) "c" && Ascii.eqb (char_at comp 1) "o"
    && Ascii.eqb (char_at comp 2) "m" && Ascii.eqb (char_at comp 3) "p"
    && Ascii.eqb (char_at comp 4) "_".
Proof.
  destruct comp as [|x0 [|x1 [|x2 [|x3 [|x4 [|x5 rest]]]]]];
    cbn [list_ascii_of_string strncmp_eq char_at nth];
    rewrite ?andb_true_r; try reflexivity;
    repeat match goal with
           | |- context [Ascii.eqb ?a ?b] => is_var a; destruct (Ascii.eqb a b); cbn [andb]
           end; reflexivity.
Qed.

(** X3.  [comp_str_parse] looks at the first ten characters only: two
    strings that agree there, the terminating NUL counted as a
    character, parse alike.  And it is sound: when it succeeds, [a] is 1
    or 2, [b] is in 0..3, [c] is in 0..8, and the first ten characters
    of the string are the text [comp_str_create_abc] makes of them. *)
Theorem comp_str_parse_sound (comp : list ascii) (a0 b0 c0 : Z) :
  (forall comp' : list ascii,
     (forall i, (i < 10)%nat -> char_at comp' i = char_at comp i) ->
     comp_str_parse comp' a0 b0 c0 = comp_str_parse comp a0 b0 c0)
  /\ (forall a b c : Z,
       comp_str_parse comp a0 b0 c0 = (true, (a, b, c)) ->
       (a = 1 \/ a = 2) /\ 0 <= b <= 3 /\ 0 <= c <= 8
       /\ take 10 comp = comp_str_create_abc a b c).
Proof.
  split.
  { intros comp' Hsame. unfold comp_str_parse. rewrite !strncmp_eq_char_at.
    by rewrite !Hsame by lia. }
  intros a b c. unfold comp_str_parse.
  destruct (strncmp_eq comp _ 5) eqn:Hpfx; [|cbn [andb]; discriminate].
  apply (strncmp_eq_take (list_ascii_of_string "comp_")) in Hpfx.
  change (length (list_ascii_of_string "comp_")) with 5%nat in Hpfx.
  rewrite <- (take_drop 5 comp), Hpfx. clear Hpfx.
  destruct (drop 5 comp) as [|x5 [|x6 [|x7 [|x8 [|x9 rest]]]]];
    cbn [list_ascii_of_string app char_at nth andb];
    rewrite ?andb_false_r; try discriminate.
  destruct (Ascii.eqb x6 ".") eqn:H6; rewrite ?andb_false_r; cbn [andb]; [|discriminate].
  destruct (isdigit x7) eqn:H7; rewrite ?andb_false_r; cbn [andb]; [|discriminate].
  destruct (Ascii.eqb x8 ".") eqn:H8; rewrite ?andb_false_r; cbn [andb]; [|discriminate].
  destruct (isdigit x9) eqn:H9; rewrite ?andb_false_r; cbn [andb]; [|discriminate].
  apply Ascii.eqb_eq in H6, H8. subst x6 x8.
  destruct (digit_char x7 H7) as [Hb7 Hf7]. destruct (digit_char x9 H9) as [Hb9 Hf9].
  destruct (_ || _) eqn:H5; [|discriminate].
  intros Hres. injection Hres as Hok <- <- <-.
  apply andb_true_iff in Hok as [Hb3 Hc8]. apply Z.leb_le in Hb3, Hc8.
  unfold comp_str_create_abc. rewrite Hf7, Hf9.
  apply orb_true_iff in H5 as [H5|H5]; apply Ascii.eqb_eq in H5; subst x5.
  - split; [by left|]. repeat split; try lia; reflexivity.
  - split; [by right|]. repeat split; try lia; reflexivity.
Qed.

Lemma comp_str_parse_sound_witness :
  comp_str_parse (list_ascii_of_string "comp_2.3.8") 0 0 0
    = comp_str_parse (list_ascii_of_string "comp_2.3.8 (gfx)") 0 0 0
  /\ comp_str_parse (list_ascii_of_string "comp_2.3.8 (gfx)") 0 0 0 = (true, (2, 3, 8))
  /\ (2 = 1 \/ 2 = 2) /\ 0 <= 3 <= 3 /\ 0 <= 8 <= 8
  /\ take 10 (list_ascii_of_string "comp_2.3.8 (gfx)") = comp_str_create_abc 2 3 8.
Proof.
  destruct (comp_str_parse_sound (list_ascii_of_string "comp_2.3.8 (gfx)") 0 0 0)
    as [Hten Hsound].
  split.
  - apply Hten. intros i Hi.
    do 10 (destruct i as [|i]; [reflexivity|]). lia.
  - split; [reflexivity|]. apply Hsound. reflexivity.
Defined.

(** X4.  [comp_str_parse] reads back what [comp_str_create_abc] writes, for
    [a] in 1..2, [b] in 0..3 and [c] in 0..8, whatever text follows it
    and whatever [a], [b] and [c] held before. *)
Theorem comp_str_parse_create_abc (a b c a0 b0 c0 : Z) (tail : list ascii) :
  1 <= a <= 2 -> 0 <= b <= 3 -> 0 <= c <= 8 ->
  comp_str_parse (comp_str_create_abc a b c ++ tail) a0 b0 c0 = (true, (a, b, c)).
Proof.
  intros Ha Hb Hc.
  assert (Ha' : a = 1 \/ a = 2) by lia.
  assert (Hb' : b = 0 \/ b = 1 \/ b = 2 \/ b = 3) by lia.
  assert (Hc' : c = 0 \/ c = 1 \/ c = 2 \/ c = 3 \/ c = 4 \/ c = 5
                \/ c = 6 \/ c = 7 \/ c = 8) by lia.
  destruct Ha' as [->| ->];
    destruct Hb' as [->|[->|[->| ->]]];
    destruct Hc' as [->|[->|[->|[->|[->|[->|[->|[->| ->]]]]]]]];
    reflexivity.
Qed.

Lemma comp_str_parse_create_abc_witness :
  comp_str_parse (comp_str_create_abc 1 0 5 ++ list_ascii_of_string "/ring") 9 9 9
  = (true, (1, 0, 5)).
Proof. apply comp_str_parse_create_abc; lia. Defined.

(** Success does not depend on what [a], [b] and [c] held before. *)
Lemma comp_str_parse_success (comp : list ascii) (a0 b0 c0 a1 b1 c1 : Z) r :
  comp_str_parse comp a0 b0 c0 = (true, r) ->
  comp_str_parse comp a1 b1 c1 = (true, r).
Proof.
  unfold comp_str_parse.
  by destruct (strncmp_eq _ _ _ && _ && _ && _ && _ && _).
Qed.

Lemma comp_str_create_val_parse_below_72 :
  forallb (fun n => bool_decide
            (comp_str_parse (comp_str_create_val (Z.of_nat n)) 0 0 0
             = (true, snd (comp_val_to_abc (Z.of_nat n)))))
          (seq 0 72) = true.
Proof. vm_compute. reflexivity. Qed.



End CompFacts.

(** ** Facts about sequences of log calls *)

Section LogRunFacts.
Import Log LogRun.

Lemma merged_only_right {A : Type} (b : list A) : merged [] b b.
Proof. induction b; by constructor. Qed.

Lemma merged_snoc_left {A : Type} (a b l : list A) (x : A) :
  merged a b l -> merged (a ++ [x]) b (l ++ [x]).
Proof.
  induction 1; simpl.
  - apply merged_left, merged_nil.
  - by apply merged_left.
  - by apply merged_right.
Qed.

Lemma merged_app_right {A : Type} (a b l p : list A) :
  merged a b l -> merged a (b ++ p) (l ++ p).
Proof.
  induction 1; simpl.
  - apply merged_only_right.
  - by apply merged_left.
  - by apply merged_right.
Qed.

Lemma logf_update_effect (g : globals) :
  g_log (logf_update g) = g_log g ++ g_thread_log g
  /\ g_thread_log (logf_update g) = []
  /\ g_main_tid (logf_update g) = g_main_tid g.
Proof.
  unfold logf_update. destruct (g_thread_log g) as [|x p] eqn:E; simpl.
  - by rewrite ?E, app_nil_r.
  - rewrite fold_push_back. unfold push_back. by rewrite <- app_assoc.
Qed.

Lemma run_main_tid (cs : list call) : forall g, g_main_tid (run cs g) = g_main_tid g.
Proof.
  induction cs as [|c cs IH]; intros g; [done|]. simpl. unfold run in IH. rewrite IH.
  destruct c as [tid ret buf|]; simpl.
  - unfold logf. by destruct (0 <=? ret), (tid =? g_main_tid g).
  - unfold logf_update. by destruct (0 <? length (g_thread_log g))%nat.
Qed.

(** The invariant of a run: [g_log] merges what the main thread logged
    with the part of the workers' texts already moved, and
    [g_thread_log] is the part not moved yet. *)
Lemma run_merged (cs : list call) : forall g a b,
  merged a b (g_log g) ->
  exists b',
    b ++ g_thread_log g ++ worker_texts (g_main_tid g) cs = b' ++ g_thread_log (run cs g)
    /\ merged (a ++ main_texts (g_main_tid g) cs) b' (g_log (run cs g)).
Proof.
  induction cs as [|c cs IH]; intros g a b Hm.
  - exists b. simpl. by rewrite !app_nil_r.
  - destruct c as [tid ret buf|]; simpl.
    + unfold logf. destruct (0 <=? ret) eqn:Er; simpl; [|by apply IH].
      destruct (tid =? g_main_tid g) eqn:Et; simpl.
      * destruct (IH (Globals (g_main_tid g) (push_back (g_log g) buf) (g_thread_log g))
                    (a ++ [buf]) b) as (b' & Hb & Hm').
        { by apply merged_snoc_left. }
        exists b'. simpl in Hb, Hm'. split; [done|]. by rewrite <- app_assoc in Hm'.
      * destruct (IH (Globals (g_main_tid g) (g_log g) (push_back (g_thread_log g) buf))
                    a b Hm) as (b' & Hb & Hm').
        exists b'. simpl in Hb, Hm'. split; [|done].
        rewrite <- Hb. unfold push_back. by rewrite <- !app_assoc.
    + pose proof (logf_update_effect g) as (Hl & Ht & Hid).
      destruct (IH (logf_update g) a (b ++ g_thread_log g)) as (b' & Hb & Hm').
      { rewrite Hl. by apply merged_app_right. }
      rewrite Hid, Ht in Hb. rewrite Hid in Hm'. exists b'. split; [|done].
      rewrite <- Hb. simpl. by rewrite <- app_assoc.
Qed.

(** X6.  Whatever the order of the calls, no text is lost, doubled or
    reordered within its source: at the end [g_log] merges, each in its
    own order, the lines it held and the main thread's texts with the
    texts of the other threads that a [logf_update] has moved, and
    [g_thread_log] holds the remaining ones; texts given with a
    negative size appear nowhere. *)
Theorem run_keeps_every_text (cs : list call) (g : globals) :
  exists moved,
    g_thread_log g ++ worker_texts (g_main_tid g) cs = moved ++ g_thread_log (run cs g)
    /\ merged (g_log g ++ main_texts (g_main_tid g) cs) moved (g_log (run cs g))
    /\ g_main_tid (run cs g) = g_main_tid g.
Proof.
  destruct (run_merged cs g (g_log g) []) as (b' & Hb & Hm).
  { clear. induction (g_log g); by constructor. }
  exists b'. split; [done|]. split; [done|]. apply run_main_tid.
Qed.

(** X7.  After a last [logf_update] every accepted text is in [g_log]. *)
Theorem run_then_update_shows_all (cs : list call) (g : globals) :
  g_thread_log (run (cs ++ [Update]) g) = []
  /\ merged (g_log g ++ main_texts (g_main_tid g) cs)
            (g_thread_log g ++ worker_texts (g_main_tid g) cs)
            (g_log (run (cs ++ [Update]) g)).
Proof.
  unfold run. rewrite fold_left_app. simpl. fold (run cs g).
  destruct (logf_update_effect (run cs g)) as (Hl & Ht & _).
  split; [done|]. rewrite Hl.
  destruct (run_merged cs g (g_log g) []) as (b' & Hb & Hm).
  { clear. induction (g_log g); by constructor. }
  simpl in Hb. rewrite Hb. by apply merged_app_right.
Qed.

(** X8.  [logf_clear] empties both vectors: the texts of other threads that
    were waiting are dropped with the rest, so a [logf_update] after it
    brings nothing back. *)
Theorem logf_clear_drops_pending (g : globals) :
  g_log (logf_clear g) = []
  /\ g_thread_log (logf_clear g) = []
  /\ logf_update (logf_clear g) = logf_clear g
  /\ g_main_tid (logf_clear g) = g_main_tid g.
Proof.
  destruct (logf_update_effect g) as (_ & Ht & Hid).
  unfold logf_clear. cbn [g_log g_thread_log g_main_tid]. rewrite Ht, Hid.
  repeat split; try done.
Qed.

End LogRunFacts.

(** ** More facts about the colour table *)

Section ClrsMoreFacts.
Import Clrs ClrsMore.

Implicit Types (s : state) (e : colordata_t) (col : colors_t) (c alpha : ImU32).

(** *** Reading back *)

(** X9.  After [set], [get] without an override (an alpha above 255) returns
    the colour just set, for every role, and [is_default] tells whether
    that colour is the default one. *)
Theorem set_then_get col c alpha e s :
  s_colordata s !! col = Some e -> 255 < alpha ->
  exists s',
    set col c s = Some (tt, s')
    /\ get col alpha s' = Some (c, s')
    /\ is_default col s' = Some (c =? defcolor e, s').
Proof.
  intros He Ha.
  assert (Hlt : (col < length (s_colordata s))%nat) by by eapply lookup_lt_Some.
  assert (Hget : forall s1 e1, s_colordata s1 !! col = Some e1 ->
            get col alpha s1 = Some (color e1, s1)
            /\ is_default col s1 = Some (color e1 =? defcolor e1, s1)).
  { intros s1 e1 He1. unfold get, is_default, bind, colordata, ret.
    destruct (alpha <=? 255) eqn:E; [apply Z.leb_le in E; lia|]. by rewrite He1. }
  destruct (decide (c = color e)) as [->|Hc].
  - exists s. split; [by eapply set_run_eq|]. by apply Hget.
  - eexists. split; [by apply set_run_ne|].
    apply (Hget _ (with_modified (with_color e c) true)).
    cbn [s_colordata]. by apply list_lookup_insert_eq.
Qed.

Lemma set_then_get_witness :
  exists s',
    set 1%nat 0x80FF0000 sample_state = Some (tt, s')
    /\ get 1%nat 0xFFFFFFFF s' = Some (0x80FF0000, s')
    /\ is_default 1%nat s' = Some (0x80FF0000 =? 0xFF050505, s').
Proof. apply (set_then_get 1%nat 0x80FF0000 0xFFFFFFFF _ sample_state eq_refl). lia. Defined.

(** X10.  After [reset], [is_default] answers yes and [get] without an
    override returns the default colour. *)
Theorem reset_then_is_default col alpha e s :
  s_colordata s !! col = Some e -> 255 < alpha ->
  exists s',
    reset col s = Some (tt, s')
    /\ is_default col s' = Some (true, s')
    /\ get col alpha s' = Some (defcolor e, s').
Proof.
  intros He Ha.
  assert (Hlt : (col < length (s_colordata s))%nat) by by eapply lookup_lt_Some.
  eexists. split.
  - unfold reset, bind, colordata, assign_color. rewrite He. cbn [s_colordata]. by rewrite He.
  - unfold get, is_default, bind, colordata, ret. cbn [s_colordata].
    destruct (alpha <=? 255) eqn:E; [apply Z.leb_le in E; lia|].
    rewrite list_lookup_insert_eq by done. cbn [color defcolor with_color].
    rewrite Z.eqb_refl. split; [done|]. cbn [s_colordata].
    by rewrite list_lookup_insert_eq.
Qed.

Lemma reset_then_is_default_witness :
  exists s',
    reset 1%nat edited_state = Some (tt, s')
    /\ is_default 1%nat s' = Some (true, s')
    /\ get 1%nat 0xFFFFFFFF s' = Some (0xFF050505, s').
Proof. apply (reset_then_is_default 1%nat 0xFFFFFFFF _ edited_state eq_refl). lia. Defined.

(** *** [init] twice *)

Lemma load_override_twice ini e :
  load_override ini (load_override ini e) = load_override ini e.
Proof.
  unfold load_override at 1 3.
  destruct (load_override_fields ini e) as (-> & _).
  destruct (ini_values ini !! (imgui_colors, name e)) as [[txt|v]|] eqn:E; try done;
    unfold load_override; rewrite E; try done.
  by destruct (v =? UINT64_MAX).
Qed.

(** X11.  Running [init] again changes nothing: what the file holds is
    already in the table. *)
Theorem init_twice s :
  exists s', init s = Some (tt, s') /\ init s' = Some (tt, s').
Proof.
  eexists. split; [apply init_run|]. rewrite init_run. cbn [s_colordata s_ini].
  do 3 f_equal. rewrite <- list_fmap_compose. apply list_fmap_ext.
  intros i e _. apply load_override_twice.
Qed.

(** *** What [shutdown] leaves in the file *)

Lemma do_put_value (f : CIniFile) (p : ini_put) (k : string * string) :
  ini_values (do_put f p) !! k
  = if decide (put_key p = k) then Some (put_value p) else ini_values f !! k.
Proof.
  destruct p as [key val section|key val section]; simpl;
    rewrite lookup_insert; by repeat case_decide.
Qed.

(** Puts under other keys do not change what is under [k]. *)
Lemma replay_other_keys (ps : list ini_put) (k : string * string) : forall f,
  Forall (fun p => put_key p <> k) ps ->
  ini_values (fold_left do_put ps f) !! k = ini_values f !! k.
Proof.
  induction ps as [|p ps IH]; intros f Hps; [done|].
  apply Forall_cons in Hps as [Hp Hps]. simpl. rewrite IH by done.
  rewrite do_put_value. by case_decide.
Qed.

Lemma overrides_written_app pre rest :
  overrides_written (pre ++ rest) = overrides_written pre ++ overrides_written rest.
Proof. unfold overrides_written. by rewrite List.filter_app, map_app. Qed.

Lemma overrides_written_keys (tbl : list colordata_t) (nm : string) :
  nm ∉ name <$> tbl ->
  Forall (fun p => put_key p <> (imgui_colors, nm)) (overrides_written tbl).
Proof.
  intros Hnm. apply Forall_forall. intros p Hp.
  unfold overrides_written in Hp. apply list_elem_of_fmap in Hp as (e & -> & He).
  apply list_elem_of_In, List.filter_In in He as [He _]. apply list_elem_of_In in He.
  assert (name e <> nm).
  { intros <-. apply Hnm, list_elem_of_fmap. by exists e. }
  unfold override_put. destruct (color e =? defcolor e); simpl; congruence.
Qed.

(** Under the name of an entry, after [shutdown]: the blank text or the
    colour when the entry is modified, what was there otherwise. *)
Lemma shutdown_value_at (tbl : list colordata_t) (ini : CIniFile) (i : nat) e :
  tbl !! i = Some e -> NoDup (name <$> tbl) ->
  ini_values (fold_left do_put (overrides_written tbl) ini) !! (imgui_colors, name e)
  = if modified e then Some (put_value (override_put e))
    else ini_values ini !! (imgui_colors, name e).
Proof.
  intros He Hnd.
  rewrite <- (take_drop_middle tbl i e He) in Hnd |- *.
  rewrite fmap_app, fmap_cons in Hnd.
  apply NoDup_app in Hnd as (_ & Hpre & Hrest).
  apply NoDup_cons in Hrest as [Hrest _].
  assert (Hpre' : name e ∉ name <$> take i tbl).
  { intros Hin. apply (Hpre _ Hin). by left. }
  rewrite overrides_written_app, (overrides_written_cons e), !fold_left_app.
  rewrite replay_other_keys by by apply overrides_written_keys.
  unfold overrides_written at 1. simpl. destruct (modified e); simpl.
  - rewrite do_put_value. case_decide as Hk; [done|].
    exfalso. apply Hk. unfold override_put. by destruct (color e =? defcolor e).
  - by apply replay_other_keys, overrides_written_keys.
Qed.

(** X12.  Saving and loading round trip.  Take a table with distinct names
    and 32-bit colours in which every entry not marked modified holds
    what [init] would load for it from the file.  After [shutdown], a
    new process, whose table starts from the compiled-in rows, gets
    from [init] the same colours back. *)
Theorem shutdown_then_init_restores (tbl : list colordata_t) (ini : CIniFile) :
  NoDup (name <$> tbl) ->
  Forall (fun e => 0 <= color e < 2 ^ 32) tbl ->
  Forall (fun e => modified e = false ->
                   color (load_override ini (compiled_in e)) = color e) tbl ->
  exists ini' tbl',
    shutdown {| s_colordata := tbl; s_ini := ini |}
      = Some (tt, {| s_colordata := tbl; s_ini := ini' |})
    /\ init {| s_colordata := compiled_in <$> tbl; s_ini := ini' |}
      = Some (tt, {| s_colordata := tbl'; s_ini := ini' |})
    /\ color <$> tbl' = color <$> tbl
    /\ name <$> tbl' = name <$> tbl
    /\ defcolor <$> tbl' = defcolor <$> tbl
    /\ Forall (fun e => modified e = false) tbl'.
Proof.
  intros Hnd Hcol Hunmod.
  eexists _, _. split; [apply shutdown_run|]. split; [apply init_run|].
  cbn [s_colordata s_ini].
  set (ini' := fold_left do_put (overrides_written tbl) ini).
  split; [|split; [|split]].
  - rewrite <- !list_fmap_compose. apply list_fmap_ext. intros i e He. simpl.
    pose proof (shutdown_value_at tbl ini i e He Hnd) as Hval. fold ini' in Hval.
    pose proof (proj1 (Forall_lookup _ _) Hcol i e He) as Hc. simpl in Hc.
    pose proof (proj1 (Forall_lookup _ _) Hunmod i e He) as Hu. simpl in Hu.
    unfold load_override in Hu |- *. cbn [name compiled_in XTAG] in Hu |- *.
    rewrite Hval. destruct (modified e).
    + unfold override_put. destruct (color e =? defcolor e) eqn:E; simpl.
      * symmetry. by apply Z.eqb_eq.
      * destruct (color e =? UINT64_MAX) eqn:E2.
        { apply Z.eqb_eq in E2. unfold UINT64_MAX in E2. lia. }
        simpl. by apply to_ImU32_small.
    + by apply Hu.
  - rewrite <- !list_fmap_compose. apply list_fmap_ext. intros i e _. simpl.
    by destruct (load_override_fields ini' (compiled_in e)) as (-> & _).
  - rewrite <- !list_fmap_compose. apply list_fmap_ext. intros i e _. simpl.
    by destruct (load_override_fields ini' (compiled_in e)) as (_ & -> & _).
  - apply Forall_fmap, Forall_fmap, Forall_forall. intros e _. simpl.
    by destruct (load_override_fields ini' (compiled_in e)) as (_ & _ & _ & ->).
Qed.

Lemma shutdown_then_init_restores_witness :
  exists ini' tbl',
    shutdown edited_state = Some (tt, {| s_colordata := s_colordata edited_state; s_ini := ini' |})
    /\ init {| s_colordata := compiled_in <$> s_colordata edited_state; s_ini := ini' |}
      = Some (tt, {| s_colordata := tbl'; s_ini := ini' |})
    /\ color <$> tbl' = [0x80112233; 0xFF0000FF; 0xFF00FFFF]
    /\ name <$> tbl' = name <$> s_colordata edited_state
    /\ defcolor <$> tbl' = defcolor <$> s_colordata edited_state
    /\ Forall (fun e => modified e = false) tbl'.
Proof.
  apply (shutdown_then_init_restores (s_colordata edited_state) empty_ini).
  - apply (bool_decide_unpack _). vm_compute. exact I.
  - repeat constructor; simpl; lia.
  - repeat constructor; simpl; discriminate.
Defined.

(** X13.  [reset] does not mark the entry, so for an entry that is not marked
    modified, a [reset] followed by [shutdown] makes no put under the
    entry's name: what the file holds there stays, and a later [init]
    loads that again rather than the default. *)
Theorem reset_of_unmodified_not_saved col e s :
  s_colordata s !! col = Some e -> modified e = false ->
  NoDup (name <$> s_colordata s) ->
  exists s1 s2 new,
    reset col s = Some (tt, s1)
    /\ shutdown s1 = Some (tt, s2)
    /\ ini_puts (s_ini s2) = ini_puts (s_ini s) ++ new
    /\ Forall (fun p => put_key p <> (imgui_colors, name e)) new
    /\ ini_values (s_ini s2) !! (imgui_colors, name e)
       = ini_values (s_ini s) !! (imgui_colors, name e)
    /\ load_override (s_ini s2) (compiled_in e) = load_override (s_ini s) (compiled_in e).
Proof.
  intros He Hm Hnd.
  assert (Hlt : (col < length (s_colordata s))%nat) by by eapply lookup_lt_Some.
  set (e1 := with_color e (defcolor e)).
  set (tbl1 := <[col := e1]> (s_colordata s)).
  assert (Hreset : reset col s = Some (tt, {| s_colordata := tbl1; s_ini := s_ini s |})).
  { unfold reset, bind, colordata, assign_color. rewrite He. cbn [s_colordata].
    by rewrite He. }
  assert (He1 : tbl1 !! col = Some e1) by by apply list_lookup_insert_eq.
  assert (Hnd1 : NoDup (name <$> tbl1)).
  { unfold tbl1. rewrite list_fmap_insert. change (name e1) with (name e).
    rewrite list_insert_id; [done|]. by rewrite list_lookup_fmap, He. }
  pose proof (shutdown_value_at tbl1 (s_ini s) col e1 He1 Hnd1) as Hval.
  change (modified e1) with (modified e) in Hval. rewrite Hm in Hval.
  change (name e1) with (name e) in Hval.
  eexists _, _, (overrides_written tbl1).
  split; [exact Hreset|]. split; [apply shutdown_run|]. cbn [s_colordata s_ini].
  split; [apply ini_puts_replay|]. split; [|split; [exact Hval|]].
  - apply Forall_forall. intros p Hp Hk.
    unfold overrides_written in Hp. apply list_elem_of_fmap in Hp as (e' & -> & He').
    apply list_elem_of_In, List.filter_In in He' as [He' Hm'].
    apply list_elem_of_In, list_elem_of_lookup in He' as [j Hj].
    assert (Hname : name e' = name e).
    { unfold override_put in Hk. destruct (color e' =? defcolor e'); simpl in Hk; congruence. }
    assert (j = col) as ->.
    { apply (NoDup_lookup (name <$> tbl1) j col (name e)); [done| |].
      - rewrite list_lookup_fmap, Hj. simpl. by rewrite Hname.
      - by rewrite list_lookup_fmap, He1. }
    rewrite He1 in Hj. injection Hj as <-. simpl in Hm'. congruence.
  - unfold load_override. cbn [name compiled_in XTAG]. by rewrite Hval.
Qed.

Lemma reset_of_unmodified_not_saved_witness :
  exists s1 s2 new,
    reset 1%nat loaded_state = Some (tt, s1)
    /\ shutdown s1 = Some (tt, s2)
    /\ ini_puts (s_ini s2) = ini_puts (s_ini loaded_state) ++ new
    /\ Forall (fun p => put_key p <> (imgui_colors, "col_ClearColor"%string)) new
    /\ ini_values (s_ini s2) !! (imgui_colors, "col_ClearColor"%string)
       = ini_values (s_ini loaded_state) !! (imgui_colors, "col_ClearColor"%string)
    /\ load_override (s_ini s2) (compiled_in (Colordata "col_ClearColor" 0xFF202020
                                   0xFF050505 false "Window background clear color"))
       = load_override (s_ini loaded_state)
           (compiled_in (Colordata "col_ClearColor" 0xFF202020 0xFF050505 false
                           "Window background clear color")).
Proof.
  apply (reset_of_unmodified_not_saved 1%nat _ loaded_state eq_refl eq_refl).
  apply (bool_decide_unpack _). vm_compute. exact I.
Defined.

(** *** [getalpha] *)

Lemma IM_COL32_A_byte c : 0 <= IM_COL32_A c < 256.
Proof.
  unfold IM_COL32_A. change 0xFF with (Z.ones 8). rewrite Z.land_ones by lia.
  apply Z.mod_pos_bound. lia.
Qed.

Lemma alpha_unit_in_range_all : forallb alpha_unit_in_range (seq 0 256) = true.
Proof. vm_compute. reflexivity. Qed.

(** X14.  [getalpha] reads the table without changing it and returns a float
    between 0 and 1: exactly 0 for the alpha byte 0 and exactly 1 for
    the alpha byte 255, the product with the rounded 1/255 never going
    above one. *)
Theorem getalpha_unit col e s :
  s_colordata s !! col = Some e ->
  exists v,
    getalpha col s = Some (v, s)
    /\ F32.leb F32.zero v = true /\ F32.leb v F32.one = true
    /\ (IM_COL32_A (color e) = 0 -> v = F32.zero)
    /\ (IM_COL32_A (color e) = 255 -> v = F32.one).
Proof.
  intros He. exists (alpha_unit (IM_COL32_A (color e))).
  split; [unfold getalpha, bind, colordata, ret; by rewrite He|].
  pose proof (IM_COL32_A_byte (color e)) as Hb.
  pose proof (proj1 (forallb_forall _ _) alpha_unit_in_range_all
                (Z.to_nat (IM_COL32_A (color e)))) as Hall.
  unfold alpha_unit_in_range in Hall. rewrite Z2Nat.id in Hall by lia.
  apply andb_true_iff in Hall as [H0 H1]; [|apply in_seq; lia].
  repeat split; try done; by intros ->.
Qed.

Lemma getalpha_unit_witness :
  exists v,
    getalpha 0%nat edited_state = Some (v, edited_state)
    /\ F32.leb F32.zero v = true /\ F32.leb v F32.one = true
    /\ (IM_COL32_A 0x80112233 = 0 -> v = F32.zero)
    /\ (IM_COL32_A 0x80112233 = 255 -> v = F32.one).
Proof. exact (getalpha_unit 0%nat _ edited_state eq_refl). Defined.

End ClrsMoreFacts.

(** ** Facts about the colour escapes *)

Section TextClrsFacts.
Import Clrs Comp TextClrs.

Lemma channel_byte (x : Z) : 0 <= x < 256 -> 1 <= max_u8 x 1 < 256 /\ max_u8 x 1 = Z.max x 1.
Proof.
  intros H. unfold max_u8. rewrite (Z.mod_small x), (Z.mod_small 1) by lia. lia.
Qed.

Lemma char_code_char_of (k : Z) : 0 <= k < 256 -> char_code (char_of k) = k.
Proof.
  intros H. unfold char_code, char_of. rewrite nat_ascii_embedding by lia. lia.
Qed.

Lemma land_byte (x : Z) : 0 <= Z.land x 0xFF < 256.
Proof.
  change 0xFF with (Z.ones 8). rewrite Z.land_ones by lia. apply Z.mod_pos_bound. lia.
Qed.

(** X15.  The escape [TextClrs::set] builds has five characters, the first
    being ESC and the others the red, green, blue and alpha bytes of the
    colour with a zero byte raised to one; so there is never a NUL
    character in it. *)
Theorem text_color_escape (color : Z) :
  map char_code (TextClrs.set color)
    = [27; Z.max (IM_COL32_R color) 1; Z.max (IM_COL32_G color) 1;
       Z.max (IM_COL32_B color) 1; Z.max (IM_COL32_A color) 1]
  /\ Forall (fun ch => ch <> NUL) (TextClrs.set color).
Proof.
  assert (Hcodes : map char_code (TextClrs.set color)
    = [27; Z.max (IM_COL32_R color) 1; Z.max (IM_COL32_G color) 1;
       Z.max (IM_COL32_B color) 1; Z.max (IM_COL32_A color) 1]).
  { assert (Hch : forall x, char_code (char_of (max_u8 (Z.land x 0xFF) 1))
                            = Z.max (Z.land x 0xFF) 1).
    { intros x. destruct (channel_byte (Z.land x 0xFF) (land_byte x)) as [Hr Hm].
      rewrite char_code_char_of by lia. exact Hm. }
    unfold TextClrs.set, IM_COL32_R, IM_COL32_G, IM_COL32_B, IM_COL32_A.
    cbn [map]. rewrite !Hch. reflexivity. }
  split; [exact Hcodes|].
  apply Forall_forall. intros ch Hch ->.
  assert (Hin : char_code NUL ∈ map char_code (TextClrs.set color))
    by by apply list_elem_of_fmap_2.
  rewrite Hcodes in Hin. change (char_code NUL) with 0 in Hin.
  repeat (apply elem_of_cons in Hin as [Hin|Hin]; [lia|]).
  by apply elem_of_nil in Hin.
Qed.

End TextClrsFacts.

(** ** Facts about the string helpers *)

Section StrFacts.
Import Comp Str.

Implicit Types (s : list ascii) (ch : ascii).

(** *** [std::find_if] *)

Lemma find_if_le {A : Type} (pred : A -> bool) (l : list A) :
  (find_if pred l <= length l)%nat.
Proof. induction l as [|x l IH]; simpl; [lia|]. destruct (pred x); simpl; lia. Qed.

Lemma find_if_before {A : Type} (pred : A -> bool) (l : list A) :
  Forall (fun x => pred x = false) (take (find_if pred l) l).
Proof.
  induction l as [|x l IH]; simpl; [constructor|].
  destruct (pred x) eqn:E; simpl; [constructor|]. by constructor.
Qed.

Lemma find_if_at {A : Type} (pred : A -> bool) (l : list A) (x : A) :
  head (drop (find_if pred l) l) = Some x -> pred x = true.
Proof.
  induction l as [|y l IH]; simpl; [done|].
  destruct (pred y) eqn:E; simpl; [|done]. by intros [= <-].
Qed.

Lemma find_if_head {A : Type} (pred : A -> bool) (x : A) (l : list A) :
  pred x = true -> find_if pred (x :: l) = 0%nat.
Proof. intros H. simpl. by rewrite H. Qed.

(** *** Trimming *)

Lemma string_ltrim_drop s : string_ltrim s = drop (find_if not_space s) s.
Proof. reflexivity. Qed.

Lemma string_rtrim_reverse s : string_rtrim s = reverse (string_ltrim (reverse s)).
Proof.
  unfold string_rtrim, erase. rewrite string_ltrim_drop, drop_reverse, reverse_involutive.
  by rewrite drop_all, app_nil_r.
Qed.

Lemma string_ltrim_spec s :
  exists pre, s = pre ++ string_ltrim s /\ Forall (fun ch => isspace ch = true) pre
    /\ (forall ch, head (string_ltrim s) = Some ch -> isspace ch = false).
Proof.
  exists (take (find_if not_space s) s). rewrite string_ltrim_drop. split; [|split].
  - by rewrite take_drop.
  - eapply Forall_impl; [apply find_if_before|]. intros ch H. simpl in H.
    unfold not_space in H. by destruct (isspace ch).
  - intros ch H. apply find_if_at in H. unfold not_space in H. by destruct (isspace ch).
Qed.

Lemma string_ltrim_fixed s :
  (forall ch, head s = Some ch -> isspace ch = false) -> string_ltrim s = s.
Proof.
  intros H. rewrite string_ltrim_drop. destruct s as [|ch s]; [done|].
  rewrite find_if_head; [done|]. unfold not_space. by rewrite (H ch).
Qed.

(** Trimming the front of a string that holds a character which is not
    a space keeps everything from that character on. *)
Lemma string_ltrim_snoc s ch :
  isspace ch = false -> exists k, string_ltrim (s ++ [ch]) = k ++ [ch].
Proof.
  intros Hch. rewrite string_ltrim_drop.
  induction s as [|x s IH]; simpl.
  - unfold not_space. rewrite Hch. simpl. by exists [].
  - destruct (not_space x); simpl; [by exists (x :: s)|done].
Qed.

Lemma string_trim_ends s :
  (forall ch, head (string_trim s) = Some ch -> isspace ch = false)
  /\ (forall ch, last (string_trim s) = Some ch -> isspace ch = false).
Proof.
  unfold string_trim. rewrite string_rtrim_reverse.
  destruct (string_ltrim_spec s) as (pre & _ & _ & Hhead).
  destruct (string_ltrim_spec (reverse (string_ltrim s))) as (q & _ & _ & Hlast).
  split.
  - destruct (string_ltrim s) as [|c r]; [done|].
    rewrite reverse_cons.
    destruct (string_ltrim_snoc (reverse r) c) as [k ->]; [by apply Hhead|].
    rewrite reverse_snoc. simpl. intros ch [= <-]. by apply Hhead.
  - intros ch. rewrite last_reverse. apply Hlast.
Qed.

(** X16.  [string_trim] takes spaces, and only spaces, off both ends: the
    string is the result between two runs of space characters, and the
    result neither starts nor ends with a space. *)
Theorem string_trim_spec s :
  exists pre post,
    s = pre ++ string_trim s ++ post
    /\ Forall (fun ch => isspace ch = true) pre
    /\ Forall (fun ch => isspace ch = true) post
    /\ (forall ch, head (string_trim s) = Some ch -> isspace ch = false)
    /\ (forall ch, last (string_trim s) = Some ch -> isspace ch = false).
Proof.
  destruct (string_ltrim_spec s) as (pre & Hs & Hpre & _).
  destruct (string_ltrim_spec (reverse (string_ltrim s))) as (q & Hq & Hsp & _).
  exists pre, (reverse q). split; [|split; [done|split; [by apply Forall_reverse|]]].
  - unfold string_trim. rewrite string_rtrim_reverse, <- reverse_app, <- Hq.
    by rewrite reverse_involutive.
  - apply string_trim_ends.
Qed.

(** X17.  Trimming twice is trimming once. *)
Theorem string_trim_idempotent s : string_trim (string_trim s) = string_trim s.
Proof.
  destruct (string_trim_ends s) as [Hhead Hlast].
  unfold string_trim at 1. rewrite string_ltrim_fixed by done.
  rewrite string_rtrim_reverse, string_ltrim_fixed; [apply reverse_involutive|].
  intros ch. rewrite head_reverse. apply Hlast.
Qed.

(** *** Exploding and imploding *)

Lemma string_implode_from_join (elements : list (list ascii)) : forall i n delimiter full,
  n = (i + length elements)%nat ->
  string_implode_from elements i n delimiter full = full ++ join elements delimiter.
Proof.
  induction elements as [|x elements IH]; intros i n delimiter full Hn; simpl.
  - by rewrite app_nil_r.
  - simpl in Hn. rewrite (IH (S i) n) by lia.
    destruct elements as [|y elements].
    + rewrite bool_decide_eq_false_2 by (simpl in Hn; lia). simpl. by rewrite app_nil_r.
    + rewrite bool_decide_eq_true_2 by (simpl in Hn; lia). by rewrite <- !app_assoc.
Qed.

Lemma string_implode_join (elements : list (list ascii)) delimiter :
  string_implode elements delimiter = join elements delimiter.
Proof. unfold string_implode. by rewrite (string_implode_from_join elements 0). Qed.

Lemma tokens_nil s delim : tokens s delim = [] -> s = [].
Proof.
  destruct s as [|ch s]; [done|]. simpl.
  destruct (Ascii.eqb delim ch); [done|]. by destruct (tokens s delim).
Qed.

(** The first token and what follows it, as [getline] splits them. *)
Lemma tokens_getline s delim :
  s <> [] ->
  tokens s delim
  = take (find_if (Ascii.eqb delim) s) s
      :: tokens (drop (S (find_if (Ascii.eqb delim) s)) s) delim.
Proof.
  induction s as [|ch s IH]; [done|]. intros _. simpl.
  destruct (Ascii.eqb delim ch); [done|].
  destruct s as [|ch' s]; [done|]. by rewrite IH.
Qed.

Lemma string_explode_from_tokens (fuel : nat) : forall rest delim result,
  (length rest < fuel)%nat ->
  string_explode_from fuel rest delim result = result ++ tokens rest delim.
Proof.
  induction fuel as [|fuel IH]; intros rest delim result Hlen; [lia|].
  destruct rest as [|ch rest]; [simpl; by rewrite app_nil_r|].
  rewrite (tokens_getline (ch :: rest)) by done.
  cbn [string_explode_from getline]. rewrite IH; [by rewrite <- app_assoc|].
  rewrite length_drop. simpl in *. lia.
Qed.

Lemma string_explode_tokens s delim : string_explode s delim = tokens s delim.
Proof. unfold string_explode. rewrite string_explode_from_tokens; [done|lia]. Qed.

Lemma join_cons_char ch (token : list ascii) rest delimiter :
  join ((ch :: token) :: rest) delimiter = ch :: join (token :: rest) delimiter.
Proof. by destruct rest. Qed.

Lemma without_final_cons ch s delim :
  s <> [] -> without_final (ch :: s) delim = ch :: without_final s delim.
Proof.
  intros Hs. unfold without_final. destruct s as [|ch' s]; [done|].
  rewrite last_cons_cons. case_bool_decide; [|done].
  simpl. by rewrite Nat.sub_0_r.
Qed.

Lemma tokens_join s delim : join (tokens s delim) [delim] = without_final s delim.
Proof.
  induction s as [|ch s IH]; [done|]. simpl.
  destruct (Ascii.eqb delim ch) eqn:E.
  - apply Ascii.eqb_eq in E as <-.
    destruct s as [|ch' s].
    { unfold without_final. simpl. by rewrite bool_decide_eq_true_2. }
    rewrite without_final_cons by done. rewrite <- IH.
    destruct (tokens (ch' :: s) delim) eqn:Et; [by apply tokens_nil in Et|done].
  - apply Ascii.eqb_neq in E.
    destruct (tokens s delim) as [|token rest] eqn:Et.
    + apply tokens_nil in Et as ->. unfold without_final. simpl.
      rewrite bool_decide_eq_false_2; [done|congruence].
    + rewrite join_cons_char, IH. rewrite without_final_cons; [done|].
      by intros ->.
Qed.

Lemma tokens_no_delim s delim : Forall (fun token => delim ∉ token) (tokens s delim).
Proof.
  induction s as [|ch s IH]; simpl; [constructor|].
  destruct (Ascii.eqb delim ch) eqn:E.
  - constructor; [apply not_elem_of_nil|done].
  - apply Ascii.eqb_neq in E. destruct (tokens s delim) as [|token rest].
    + constructor; [|done]. intros [->|[]%elem_of_nil]%elem_of_cons. done.
    + apply Forall_cons in IH as [Ht Hr]. constructor; [|done].
      intros [->|H]%elem_of_cons; done.
Qed.

(** X18.  Exploding a string and imploding the tokens with the delimiter
    gives the string back, less the delimiter it may end with: a final
    empty token is not produced.  No token holds the delimiter. *)
Theorem string_explode_implode s delim :
  string_implode (string_explode s delim) [delim] = without_final s delim
  /\ Forall (fun token => delim ∉ token) (string_explode s delim)
  /\ (string_explode s delim = [] <-> s = []).
Proof.
  rewrite string_explode_tokens, string_implode_join.
  split; [apply tokens_join|]. split; [apply tokens_no_delim|].
  split; [apply tokens_nil|by intros ->].
Qed.

Lemma tokens_app_delim (token : list ascii) delim rest :
  delim ∉ token -> tokens (token ++ delim :: rest) delim = token :: tokens rest delim.
Proof.
  induction token as [|ch token IH]; intros Hd; simpl.
  - by rewrite Ascii.eqb_refl.
  - destruct (Ascii.eqb delim ch) eqn:E.
    + apply Ascii.eqb_eq in E as <-. exfalso. apply Hd. by left.
    + rewrite IH; [done|]. intros H. apply Hd. by right.
Qed.

Lemma tokens_single (token : list ascii) delim :
  delim ∉ token -> token <> [] -> tokens token delim = [token].
Proof.
  induction token as [|ch token IH]; intros Hd Hne; [done|]. simpl.
  destruct (Ascii.eqb delim ch) eqn:E.
  - apply Ascii.eqb_eq in E as <-. exfalso. apply Hd. by left.
  - destruct token as [|ch' token]; [done|].
    rewrite IH; [done| |done]. intros H. apply Hd. by right.
Qed.

(** X19.  Imploding elements that do not hold the delimiter, the last of them
    not empty, and exploding the result gives the elements back. *)
Theorem string_implode_explode (elements : list (list ascii)) delim :
  Forall (fun token => delim ∉ token) elements ->
  last elements <> Some [] ->
  string_explode (string_implode elements [delim]) delim = elements.
Proof.
  rewrite string_explode_tokens, string_implode_join.
  induction elements as [|x elements IH]; intros Hd Hlast; [done|].
  apply Forall_cons in Hd as [Hx Hd].
  destruct elements as [|y elements].
  - simpl. apply tokens_single; [done|]. by intros ->.
  - change (join (x :: y :: elements) [delim])
      with (x ++ delim :: join (y :: elements) [delim]).
    rewrite tokens_app_delim by done. f_equal. apply IH; [done|].
    by rewrite last_cons_cons in Hlast.
Qed.

Lemma string_implode_explode_witness :
  string_explode
    (string_implode [list_ascii_of_string "gfx"; []; list_ascii_of_string "comp_1.0.0"]
       [","%char]) ","%char
  = [list_ascii_of_string "gfx"; []; list_ascii_of_string "comp_1.0.0"].
Proof.
  apply string_implode_explode.
  - repeat constructor; vm_compute; intros H;
      repeat (apply elem_of_cons in H as [H|H]; [discriminate H|]);
      by apply elem_of_nil in H.
  - discriminate.
Defined.

(** *** Replacing a character *)

Lemma find_if_split {A : Type} (pred : A -> bool) (l : list A) :
  (find_if pred l < length l)%nat ->
  exists x, l = take (find_if pred l) l ++ x :: drop (S (find_if pred l)) l
            /\ pred x = true.
Proof.
  induction l as [|y l IH]; simpl; [lia|].
  destruct (pred y) eqn:E; simpl.
  - intros _. exists y. by rewrite drop_0.
  - intros H. destruct IH as (x & Hl & Hx); [lia|]. exists x. split; [|done].
    by rewrite <- Hl.
Qed.

Lemma find_if_none {A : Type} (pred : A -> bool) (l : list A) :
  ¬ (find_if pred l < length l)%nat -> Forall (fun x => pred x = false) l.
Proof.
  intros H. pose proof (find_if_le pred l) as Hle.
  pose proof (find_if_before pred l) as Hb.
  by rewrite take_ge in Hb by lia.
Qed.

Lemma replaced_id search replace (l : list ascii) :
  Forall (fun ch => Ascii.eqb search ch = false) l -> map (replaced search replace) l = l.
Proof.
  induction 1 as [|ch l Hch _ IH]; [done|]. simpl. unfold replaced at 1.
  by rewrite Hch, IH.
Qed.

Lemma count_no_search search (l : list ascii) :
  Forall (fun ch => Ascii.eqb search ch = false) l ->
  List.filter (Ascii.eqb search) l = [].
Proof. induction 1 as [|ch l Hch _ IH]; [done|]. simpl. by rewrite Hch. Qed.

Lemma string_replace_char_from_spec (fuel : nat) search replace :
  search <> replace ->
  forall pre rest,
    (length (List.filter (Ascii.eqb search) rest) < fuel)%nat ->
    string_replace_char_from fuel (pre ++ rest) search replace (length pre)
    = Some (pre ++ map (replaced search replace) rest).
Proof.
  intros Hne. induction fuel as [|fuel IH]; intros pre rest Hfuel; [lia|].
  cbn [string_replace_char_from]. unfold find_char.
  rewrite drop_app_length.
  destruct (find_if (Ascii.eqb search) rest <? length rest)%nat eqn:E.
  - apply Nat.ltb_lt in E.
    destruct (find_if_split _ _ E) as (x & Hrest & Hx).
    apply Ascii.eqb_eq in Hx as <-.
    pose proof (find_if_before (Ascii.eqb search) rest) as Hbefore.
    set (k := find_if (Ascii.eqb search) rest) in *.
    set (a := take k rest) in *. set (b := drop (S k) rest) in *.
    assert (Hk : length a = k) by (unfold a; rewrite length_take; lia).
    rewrite Hrest in Hfuel |- *.
    rewrite List.filter_app, (count_no_search search a Hbefore) in Hfuel.
    simpl in Hfuel. rewrite Ascii.eqb_refl in Hfuel. simpl in Hfuel.
    replace (<[(length pre + k)%nat := replace]> (pre ++ a ++ search :: b))
      with ((pre ++ a) ++ replace :: b).
    2:{ rewrite <- Hk, <- length_app, app_assoc.
        replace (length (pre ++ a)) with (length (pre ++ a) + 0)%nat at 1 by lia.
        by rewrite insert_app_r. }
    replace (length pre + k)%nat with (length (pre ++ a))
      by (rewrite length_app; lia).
    rewrite IH.
    + rewrite map_app, (replaced_id search replace a Hbefore). simpl.
      unfold replaced at 1 3. rewrite Ascii.eqb_refl.
      rewrite (proj2 (Ascii.eqb_neq search replace) Hne). by rewrite <- app_assoc.
    + simpl. rewrite (proj2 (Ascii.eqb_neq search replace) Hne). lia.
  - apply Nat.ltb_ge in E.
    rewrite replaced_id; [done|]. apply find_if_none. lia.
Qed.

(** X20.  With two different characters [string_replace_char] returns, after
    at most one turn per character and one more, the string with every
    [search] replaced and the other characters in place. *)
Theorem string_replace_char_all (s : list ascii) (search replace : ascii) :
  search <> replace ->
  string_replace_char (S (length s)) s search replace
  = Some (map (replaced search replace) s).
Proof.
  intros Hne. unfold string_replace_char.
  apply (string_replace_char_from_spec (S (length s)) search replace Hne [] s).
  pose proof (List.filter_length_le (Ascii.eqb search) s). lia.
Qed.

Lemma string_replace_char_all_witness :
  string_replace_char 12 (list_ascii_of_string "a/b/c.trace") "/" "_"
  = Some (map (replaced "/" "_") (list_ascii_of_string "a/b/c.trace")).
Proof.
  apply (string_replace_char_all (list_ascii_of_string "a/b/c.trace") "/" "_").
  discriminate.
Defined.

Lemma find_char_here s ch pos :
  s !! pos = Some ch -> find_char s ch pos = Some pos.
Proof.
  intros H. unfold find_char. rewrite (drop_S s ch pos H). simpl.
  rewrite Ascii.eqb_refl. simpl. f_equal. lia.
Qed.

Lemma find_if_lookup {A : Type} (pred : A -> bool) (l : list A) :
  (find_if pred l < length l)%nat ->
  exists x, l !! find_if pred l = Some x /\ pred x = true.
Proof.
  induction l as [|y l IH]; simpl; [lia|].
  destruct (pred y) eqn:E; simpl; [by exists y|].
  intros H. apply IH. lia.
Qed.

Lemma find_char_found s ch pos pos' :
  find_char s ch pos = Some pos' -> s !! pos' = Some ch.
Proof.
  unfold find_char.
  destruct (find_if (Ascii.eqb ch) (drop pos s) <? length (drop pos s))%nat eqn:E;
    [|done].
  apply Nat.ltb_lt in E. intros [= <-].
  destruct (find_if_lookup _ _ E) as (x & Hat & Hx). apply Ascii.eqb_eq in Hx as <-.
  by rewrite <- lookup_drop.
Qed.

(** X21.  When [replace] is [search] itself and the string holds it, the loop
    finds the same position again at every turn: no number of turns
    makes [string_replace_char] return. *)
Theorem string_replace_char_same_never_returns (s : list ascii) (search : ascii) (fuel : nat) :
  search ∈ s -> string_replace_char fuel s search search = None.
Proof.
  intros Hin. unfold string_replace_char.
  assert (Hfirst : exists pos, find_char s search 0 = Some pos).
  { unfold find_char. rewrite drop_0.
    destruct (find_if (Ascii.eqb search) s <? length s)%nat eqn:E; [by eexists|].
    apply Nat.ltb_ge in E.
    assert (Hnone : Forall (fun ch => Ascii.eqb search ch = false) s)
      by (apply find_if_none; lia).
    rewrite Forall_forall in Hnone. specialize (Hnone _ Hin).
    by rewrite Ascii.eqb_refl in Hnone. }
  destruct Hfirst as [pos Hpos]. revert Hpos. generalize 0%nat as start.
  induction fuel as [|fuel IH]; intros start Hpos; [done|].
  cbn [string_replace_char_from]. rewrite Hpos.
  pose proof (find_char_found _ _ _ _ Hpos) as Hat.
  rewrite list_insert_id by done. apply IH. by apply find_char_here.
Qed.

Lemma string_replace_char_same_never_returns_witness :
  string_replace_char 1000 (list_ascii_of_string "a b") " " " " = None.
Proof.
  apply string_replace_char_same_never_returns.
  apply list_elem_of_In. vm_compute. auto.
Defined.

(** *** The file name of a path *)

Lemma separator_only_last_cons ch l :
  is_separator ch = false \/ l = [] ->
  separator_only_last l -> separator_only_last (ch :: l).
Proof.
  intros Hch Hl [|i] c Hi Hc; simpl in Hi.
  - injection Hi as ->. destruct Hch as [Hch| ->]; [congruence|done].
  - simpl. f_equal. by apply (Hl i c).
Qed.

Lemma get_path_filename_from_spec (str : list ascii) : forall filename,
  NUL ∉ str ->
  (get_path_filename_from str filename = filename /\ separator_only_last str)
  \/ (exists dir sep,
        str = dir ++ sep :: get_path_filename_from str filename
        /\ is_separator sep = true
        /\ get_path_filename_from str filename <> []
        /\ separator_only_last (get_path_filename_from str filename)).
Proof.
  induction str as [|ch str IH]; intros filename Hnul.
  - left. split; [done|]. by intros i c Hi.
  - assert (Hnul' : NUL ∉ str) by (intros H; apply Hnul; by right).
    assert (Hnext : Ascii.eqb (char_at (ch :: str) 1) NUL = true <-> str = []).
    { unfold char_at. simpl. destruct str as [|c str]; [done|]. simpl. split; [|done].
      intros H%Ascii.eqb_eq. subst c. exfalso. apply Hnul'. by left. }
    cbn [get_path_filename_from].
    destruct (is_separator ch && negb (Ascii.eqb (char_at (ch :: str) 1) NUL)) eqn:E.
    + apply andb_true_iff in E as [Hsep Hnn].
      assert (Hstr : str <> []).
      { intros H. apply Hnext in H. by rewrite H in Hnn. }
      right. destruct (IH str Hnul') as [[-> Hclean]|(dir & sep & Hsplit & Hs & Hne & Hclean)].
      * by exists [], ch.
      * exists (ch :: dir), sep. split; [|done]. simpl. by rewrite <- Hsplit.
    + destruct (IH filename Hnul') as [[-> Hclean]|(dir & sep & Hsplit & Hs & Hne & Hclean)].
      * left. split; [done|]. apply separator_only_last_cons; [|done].
        apply andb_false_iff in E as [E|E]; [by left|right].
        apply Hnext. by destruct (Ascii.eqb _ NUL).
      * right. exists (ch :: dir), sep. split; [|done]. simpl. by rewrite <- Hsplit.
Qed.

(** X22.  [get_path_filename] returns an end of the path it is given: the
    whole path when no separator has a character after it, otherwise
    what follows the last such separator, which is not empty.  In the
    result a separator can only be the last character. *)
Theorem get_path_filename_spec (filename : list ascii) :
  NUL ∉ filename ->
  separator_only_last (get_path_filename filename)
  /\ (get_path_filename filename = filename
      \/ exists dir sep,
           filename = dir ++ sep :: get_path_filename filename
           /\ is_separator sep = true
           /\ get_path_filename filename <> []).
Proof.
  intros Hnul. unfold get_path_filename.
  destruct (get_path_filename_from_spec filename filename Hnul)
    as [[Heq Hclean]|(dir & sep & Hsplit & Hs & Hne & Hclean)].
  - rewrite Heq. split; [done|by left].
  - split; [done|]. right. by exists dir, sep.
Qed.

Lemma get_path_filename_spec_witness :
  separator_only_last (get_path_filename (list_ascii_of_string "/usr/share/fonts/Roboto.ttf"))
  /\ (get_path_filename (list_ascii_of_string "/usr/share/fonts/Roboto.ttf")
        = list_ascii_of_string "/usr/share/fonts/Roboto.ttf"
      \/ exists dir sep,
           list_ascii_of_string "/usr/share/fonts/Roboto.ttf"
             = dir ++ sep :: get_path_filename (list_ascii_of_string "/usr/share/fonts/Roboto.ttf")
           /\ is_separator sep = true
           /\ get_path_filename (list_ascii_of_string "/usr/share/fonts/Roboto.ttf") <> []).
Proof.
  apply get_path_filename_spec. apply (bool_decide_unpack _). vm_compute. exact I.
Defined.

Example get_path_filename_samples :
  get_path_filename (list_ascii_of_string "/usr/share/fonts/Roboto.ttf")
    = list_ascii_of_string "Roboto.ttf"
  /\ get_path_filename (list_ascii_of_string "traces\\run1/") = list_ascii_of_string "run1/"
  /\ get_path_filename (list_ascii_of_string "trace.dat") = list_ascii_of_string "trace.dat".
Proof. repeat split; reflexivity. Qed.

(** *** Formatting *)

Lemma buffer_holds_text (text : list ascii) (size : Z) :
  Z.of_nat (length text) < size ->
  take (length text)
    (take (Z.to_nat (size - 1)) text
       ++ replicate (Z.to_nat size - length (take (Z.to_nat (size - 1)) text)) NUL)
  = text.
Proof.
  intros H. rewrite (take_ge text (Z.to_nat (size - 1))) by lia.
  by rewrite take_app_length.
Qed.

(** A call whose text fits ends the loop with that text. *)
Lemma string_formatv_from_fits {va_list} (expand : va_list -> list ascii)
    (spent : va_list -> Z -> va_list) (old : bool) (ap : va_list) (size : Z) (fuel : nat) :
  Z.of_nat (length (expand ap)) < size ->
  string_formatv_from va_list
    (if old then old_vsnprintf va_list expand spent else c99_vsnprintf va_list expand spent)
    (S fuel) ap size = Some (expand ap).
Proof.
  intros Hfit. cbn [string_formatv_from].
  assert (Hcall : (if old then old_vsnprintf va_list expand spent
                   else c99_vsnprintf va_list expand spent) ap size
                  = c99_vsnprintf va_list expand spent ap size).
  { destruct old; [|reflexivity]. unfold old_vsnprintf. cbv zeta.
    by rewrite (proj2 (Z.ltb_lt _ size)) by lia. }
  rewrite Hcall. unfold c99_vsnprintf. cbv zeta.
  rewrite (proj2 (Z.ltb_lt (-1) _)), (proj2 (Z.ltb_lt _ size)) by lia.
  cbn [andb]. by rewrite Nat2Z.id, buffer_holds_text.
Qed.


Ltac sample_lengths :=
  unfold sample_used_up, sample_kept;
  cbn [ap_after sample_expand tail list_ascii_of_string length];
  rewrite ?length_replicate; lia.


Lemma string_formatv_old_from {va_list} (expand : va_list -> list ascii)
    (spent : va_list -> Z -> va_list) (k : nat) : forall ap size,
  0 < size ->
  (forall j, (j < k)%nat ->
     size * 2 ^ Z.of_nat j <= Z.of_nat (length (expand (ap_after va_list spent j ap size)))) ->
  Z.of_nat (length (expand (ap_after va_list spent k ap size))) < size * 2 ^ Z.of_nat k ->
  string_formatv_from va_list (old_vsnprintf va_list expand spent) (S k) ap size
  = Some (expand (ap_after va_list spent k ap size))
  /\ string_formatv_from va_list (old_vsnprintf va_list expand spent) k ap size = None.
Proof.
  induction k as [|k IH]; intros ap size Hpos Hbig Hfit.
  - change (2 ^ Z.of_nat 0) with 1 in Hfit. cbn [ap_after] in *.
    split; [|reflexivity].
    apply (string_formatv_from_fits expand spent true). lia.
  - assert (H0 : size <= Z.of_nat (length (expand ap))).
    { specialize (Hbig 0%nat ltac:(lia)). cbn [ap_after] in Hbig.
      change (2 ^ Z.of_nat 0) with 1 in Hbig. lia. }
    assert (Hstep : forall fuel,
              string_formatv_from va_list (old_vsnprintf va_list expand spent) (S fuel) ap size
              = string_formatv_from va_list (old_vsnprintf va_list expand spent) fuel
                  (spent ap size) (size * 2)).
    { intros fuel. cbn [string_formatv_from]. unfold old_vsnprintf at 1. cbv zeta.
      rewrite (proj2 (Z.ltb_ge _ size)) by lia.
      change (-1 <? -1) with false. reflexivity. }
    rewrite !Hstep. cbn [ap_after] in Hfit |- *. apply IH; [lia| |].
    + intros j Hj. specialize (Hbig (S j) ltac:(lia)). cbn [ap_after] in Hbig.
      rewrite Nat2Z.inj_succ, Z.pow_succ_r in Hbig by lia. lia.
    + rewrite Nat2Z.inj_succ, Z.pow_succ_r in Hfit by lia. lia.
Qed.



(** *** Replacing a string *)

Lemma find_str_from_bounds (n : nat) (s search : list ascii) : forall i pos',
  find_str_from n s search i = Some pos' -> (i <= pos' < i + n)%nat.
Proof.
  induction n as [|n IH]; intros i pos'; simpl; [done|].
  destruct (starts_with (drop i s) search).
  - intros [= <-]. lia.
  - intros H%IH. lia.
Qed.

Lemma find_str_bounds (s search : list ascii) (pos pos' : nat) :
  find_str s search pos = Some pos' ->
  (pos <= pos' /\ pos' + length search <= length s)%nat.
Proof.
  unfold find_str. destruct (length search <=? length s)%nat eqn:E; [|done].
  apply Nat.leb_le in E. intros H%find_str_from_bounds. lia.
Qed.

Lemma find_str_empty (s : list ascii) (pos : nat) :
  (pos <= length s)%nat -> find_str s [] pos = Some pos.
Proof.
  intros H. unfold find_str. simpl.
  replace (S (length s - 0) - pos)%nat with (S (length s - pos)) by lia.
  simpl. by destruct (drop pos s).
Qed.

(** X25.  With an empty [search], [find] succeeds at every turn, so
    [string_replace_str] never returns, whatever [replace] is. *)
Theorem string_replace_str_empty_never_returns (fuel : nat) (s replace : list ascii) :
  string_replace_str fuel s [] replace = None.
Proof.
  unfold string_replace_str.
  assert (H : forall pos s, (pos <= length s)%nat ->
            string_replace_str_from fuel s [] replace pos = None).
  { induction fuel as [|fuel IH]; intros pos s0 Hpos; [done|].
    cbn [string_replace_str_from]. rewrite find_str_empty by done. cbv zeta.
    apply IH. rewrite !length_app, !length_take, !length_drop, !length_app,
      !length_take, !length_drop. simpl. lia. }
  apply H. lia.
Qed.

(** X26.  With a [search] that is not empty the loop ends: every turn leaves
    less of the string to look at, so one turn per character and one
    more are enough.  A string in which [search] does not occur comes
    back unchanged. *)
Theorem string_replace_str_returns (s search replace : list ascii) :
  search <> [] ->
  (exists result, string_replace_str (S (length s)) s search replace = Some result)
  /\ (find_str s search 0 = None ->
      string_replace_str (S (length s)) s search replace = Some s).
Proof.
  intros Hne. unfold string_replace_str. split.
  - assert (H : forall fuel s pos, (length s - pos < fuel)%nat ->
              exists result, string_replace_str_from fuel s search replace pos = Some result).
    { induction fuel as [|fuel IH]; intros s0 pos Hfuel; [lia|].
      cbn [string_replace_str_from].
      destruct (find_str s0 search pos) as [pos'|] eqn:E; [|by eexists].
      apply find_str_bounds in E as [Hle Hin]. cbv zeta. apply IH.
      assert (0 < length search)%nat by (destruct search; [done|simpl; lia]).
      rewrite !length_app, !length_take, !length_drop, !length_app,
        !length_take, !length_drop. lia. }
    apply H. lia.
  - intros Hnone. cbn [string_replace_str_from]. by rewrite Hnone.
Qed.

Lemma string_replace_str_returns_witness :
  (exists result,
     string_replace_str 6 (list_ascii_of_string "a->b.") (list_ascii_of_string "->")
       (list_ascii_of_string ".") = Some result)
  /\ (find_str (list_ascii_of_string "a->b.") (list_ascii_of_string "->") 0 = None ->
      string_replace_str 6 (list_ascii_of_string "a->b.") (list_ascii_of_string "->")
        (list_ascii_of_string ".") = Some (list_ascii_of_string "a->b.")).
Proof.
  apply (string_replace_str_returns (list_ascii_of_string "a->b.")
           (list_ascii_of_string "->") (list_ascii_of_string ".")).
  discriminate.
Defined.

Example string_replace_str_samples :
  string_replace_str 6 (list_ascii_of_string "a->b->c") (list_ascii_of_string "->")
    (list_ascii_of_string ".") = Some (list_ascii_of_string "a.b.c")
  /\ string_replace_str 6 (list_ascii_of_string "aaa") (list_ascii_of_string "a")
       (list_ascii_of_string "aa") = Some (list_ascii_of_string "aaaaaa").
Proof. repeat split; reflexivity. Qed.

(** *** Random strings *)

(** X27.  [gen_random_str] returns [len + 1] characters: [len] characters of
    [s_chars], none of them NUL, and a NUL as the last element of the
    string itself. *)
Theorem gen_random_str_shape (rand : nat -> Z) (len : nat) :
  length (gen_random_str rand len) = S len
  /\ last (gen_random_str rand len) = Some NUL
  /\ Forall (fun ch => ch ∈ s_chars /\ ch <> NUL) (take len (gen_random_str rand len)).
Proof.
  unfold gen_random_str. split; [|split].
  - rewrite length_app, length_map, length_seq. simpl. lia.
  - apply last_snoc.
  - rewrite take_app_length' by by rewrite length_map, length_seq.
    apply Forall_forall. intros ch Hch.
    apply list_elem_of_fmap in Hch as (i & -> & _).
    assert (Hidx : (Z.to_nat (rand i mod Z.of_nat (length s_chars)) < length s_chars)%nat).
    { pose proof (Z.mod_pos_bound (rand i) (Z.of_nat (length s_chars))) as Hb.
      change (length s_chars) with 65%nat in *. lia. }
    set (k := Z.to_nat (rand i mod Z.of_nat (length s_chars))) in *.
    assert (Hin : nth k s_chars NUL ∈ s_chars).
    { apply list_elem_of_In, nth_In. exact Hidx. }
    split; [done|]. intros Hnul. rewrite Hnul in Hin.
    revert Hin. apply (bool_decide_unpack _). vm_compute. exact I.
Qed.

End StrFacts.

(** ** Facts about the font ids *)

Section FontFacts.
Import Comp Font.

Lemma strcasecmp_eq_tolower (s1 : list ascii) : forall s2,
  strcasecmp_eq s1 s2 = true <-> map tolower s1 = map tolower s2.
Proof.
  induction s1 as [|c1 s1 IH]; intros [|c2 s2]; simpl; try done.
  rewrite andb_true_iff, IH, Ascii.eqb_eq. split.
  - by intros [-> ->].
  - by intros [= -> ->].
Qed.

Lemma strcasecmp_eq_trans (s1 s2 s3 : list ascii) :
  strcasecmp_eq s1 s2 = true -> strcasecmp_eq s2 s3 = strcasecmp_eq s1 s3.
Proof.
  intros H%strcasecmp_eq_tolower.
  destruct (strcasecmp_eq s2 s3) eqn:E2, (strcasecmp_eq s1 s3) eqn:E1; try done.
  - apply strcasecmp_eq_tolower in E2. rewrite <- H in E2.
    apply strcasecmp_eq_tolower in E2. congruence.
  - apply strcasecmp_eq_tolower in E1. rewrite H in E1.
    apply strcasecmp_eq_tolower in E1. congruence.
Qed.

(** X28.  Every name [listbox_get_fontname] hands out is found again by
    [get_font_id] at its own index when no font file takes precedence,
    and the index handed out is one of the five embedded fonts. *)
Theorem get_font_id_of_listed_name (get_file_size : list ascii -> Z) (i : Z)
    (name : list ascii) (filename : option (list ascii)) :
  listbox_get_fontname i = Some name ->
  (forall f, filename = Some f -> get_file_size f = 0) ->
  get_font_id get_file_size name filename = i /\ 0 <= i <= 4.
Proof.
  intros Hname Hfile.
  assert (Hfind : find_font name g_font_info 0 = i /\ 0 <= i <= 4).
  { unfold listbox_get_fontname in Hname.
    destruct ((0 <=? i) && (i <? Z.of_nat (length g_font_info))) eqn:E; [|done].
    apply andb_true_iff in E as [H0 H5]. apply Z.leb_le in H0. apply Z.ltb_lt in H5.
    change (Z.of_nat (length g_font_info)) with 5 in H5.
    assert (Hi : i = 0 \/ i = 1 \/ i = 2 \/ i = 3 \/ i = 4) by lia.
    destruct Hi as [->|[->|[->|[->| ->]]]]; injection Hname as <-;
      (split; [reflexivity|lia]). }
  unfold get_font_id. destruct filename as [f|]; [|done].
  by rewrite (Hfile f eq_refl).
Qed.

Lemma get_font_id_of_listed_name_witness :
  get_font_id (fun _ => 0) (list_ascii_of_string "Roboto Condensed") None = 3
  /\ 0 <= 3 <= 4.
Proof.
  apply (get_font_id_of_listed_name (fun _ => 0) 3 (list_ascii_of_string "Roboto Condensed") None).
  - reflexivity.
  - discriminate.
Defined.

(** X29.  [get_font_id] does not tell upper from lower case in the name, gives
    [FontID_TTFFile] exactly when the file name is there with a size
    that is not zero, and otherwise an embedded font or
    [FontID_Unknown]. *)
Theorem get_font_id_cases (get_file_size : list ascii -> Z) (name name' : list ascii)
    (filename : option (list ascii)) :
  strcasecmp_eq name name' = true ->
  get_font_id get_file_size name filename = get_font_id get_file_size name' filename
  /\ (get_font_id get_file_size name filename = FontID_TTFFile
      <-> exists f, filename = Some f /\ get_file_size f <> 0)
  /\ -1 <= get_font_id get_file_size name filename <= 5.
Proof.
  intros Hcase.
  assert (Hsame : forall info i, find_font name info i = find_font name' info i).
  { induction info as [|n info IH]; intros i; simpl; [done|].
    rewrite <- (strcasecmp_eq_trans name' name n), IH; [done|].
    apply strcasecmp_eq_tolower. symmetry. by apply strcasecmp_eq_tolower. }
  assert (Hrange : forall info i, 0 <= i -> -1 <= find_font name info i < i + Z.of_nat (length info)
                                   \/ find_font name info i = -1).
  { induction info as [|n info IH]; intros i Hi; simpl; [by right|].
    destruct (strcasecmp_eq name n); [left; lia|].
    destruct (IH (i + 1)) as [H|H]; [lia|left; lia|by right]. }
  assert (Hfont : -1 <= find_font name g_font_info 0 <= 4).
  { destruct (Hrange g_font_info 0) as [H|H]; [lia| |lia].
    change (Z.of_nat (length g_font_info)) with 5 in H. lia. }
  unfold get_font_id, FontID_TTFFile. destruct filename as [f|].
  - destruct (get_file_size f =? 0) eqn:E; cbn [negb].
    + apply Z.eqb_eq in E. split; [apply Hsame|]. split; [|lia]. split.
      * lia.
      * intros (f' & [= <-] & Hf). done.
    + apply Z.eqb_neq in E. split; [done|]. split; [|lia]. split; [|done].
      intros _. by exists f.
  - split; [apply Hsame|]. split; [|lia]. split; [lia|]. by intros (f' & ? & _).
Qed.

Lemma get_font_id_cases_witness :
  get_font_id (fun _ => 0) (list_ascii_of_string "DROID sans") None
    = get_font_id (fun _ => 0) (list_ascii_of_string "Droid Sans") None
  /\ (get_font_id (fun _ => 0) (list_ascii_of_string "DROID sans") None = FontID_TTFFile
      <-> exists f, None = Some f /\ (fun _ : list ascii => 0) f <> 0)
  /\ -1 <= get_font_id (fun _ => 0) (list_ascii_of_string "DROID sans") None <= 5.
Proof.
  apply (get_font_id_cases (fun _ => 0) (list_ascii_of_string "DROID sans")
           (list_ascii_of_string "Droid Sans") None).
  reflexivity.
Defined.

End FontFacts.
